(** * Bantarus/skills: segmentation helper scripts and the TFLite validator

    Shallow embedding of
    - [litert-flutter-integration/scripts/model_validator.py],
    - [edgetam-segmentation/scripts/bbox_batch_segmentation.py],
    - [edgetam-segmentation/scripts/interactive_segmentation.py],
    followed by the properties their specification states.

    Conventions.  Console output is modelled only where a property speaks
    of it (the warning and the error line of the batch script).  The
    pretrained model, the TFLite interpreter and the file system are
    outside the repository: they enter as fields of an environment record
    (what a call returns, or that it raises).  A Python exception that a
    script does not catch is the [None] or [Raised] outcome of the
    function that models it. *)

From Stdlib Require Import ZArith QArith Qround String Ascii List Lia Lqa.
From stdpp Require Import base option list strings pretty gmap.

Local Open Scope Z_scope.

(* ===================================================================== *)
(** * Part I.  The programs *)
(* ===================================================================== *)

(** ** Python numbers used by the scripts *)

Module PyNum.

(** A Python [float] that is compared against integer thresholds.  The
    floats the validator compares are byte counts divided by [2^20]; below
    [2^53] bytes binary floating point represents them exactly, so a
    float is kept as the rational it denotes. *)
Definition Qgtb (a b : Q) : bool := negb (Qle_bool a b).

(** [round(x)] to the nearest integer, ties to the even neighbour. *)
Definition round_half_even (q : Q) : Z :=
  let f := Qfloor q in
  match Qcompare (q - inject_Z f) (1 # 2) with
  | Lt => f
  | Gt => f + 1
  | Eq => if Z.even f then f else f + 1
  end.

(** [round(x, 2)]. *)
Definition round2 (q : Q) : Q :=
  Qred (inject_Z (round_half_even (q * 100)) / 100).

(** Two's-complement wrap of numpy's [int64]. *)
Definition wrap64 (z : Z) : Z :=
  (z + 2 ^ 63) mod 2 ^ 64 - 2 ^ 63.

End PyNum.

(** ** model_validator.py *)

Module Validator.
Import PyNum.

(** Element types a TFLite tensor can declare, with numpy's [itemsize]
    and the text [str(dtype)] yields. *)
Inductive DType :=
| float16 | float32 | float64
| int8 | uint8 | int16 | int32 | int64 | bool_.

#[global] Instance DType_eq_dec : EqDecision DType.
Proof. solve_decision. Defined.

Definition itemsize (d : DType) : Z :=
  match d with
  | float16 => 2 | float32 => 4 | float64 => 8
  | int8 => 1 | uint8 => 1 | int16 => 2 | int32 => 4 | int64 => 8
  | bool_ => 1
  end.

Definition str_dtype (d : DType) : string :=
  match d with
  | float16 => "<class 'numpy.float16'>"
  | float32 => "<class 'numpy.float32'>"
  | float64 => "<class 'numpy.float64'>"
  | int8 => "<class 'numpy.int8'>"
  | uint8 => "<class 'numpy.uint8'>"
  | int16 => "<class 'numpy.int16'>"
  | int32 => "<class 'numpy.int32'>"
  | int64 => "<class 'numpy.int64'>"
  | bool_ => "<class 'numpy.bool_'>"
  end.

(** One entry of [get_input_details()] / [get_output_details()]. *)
Record TensorDetail := {
  shape : list Z;
  dtype : DType
}.

(** A loaded interpreter, as far as the validator looks at it. *)
Record Interpreter := {
  get_input_details : list TensorDetail;
  get_output_details : list TensorDetail
}.

(** What the outside world answers for one model path. *)
Record Env := {
  (** [self.model_path.exists()] *)
  path_exists : bool;
  (** [self.model_path.stat().st_size], in bytes *)
  st_size : Z;
  (** [tf.lite.Interpreter(...)] then [allocate_tensors()];
      [None] when either raises *)
  load_interpreter : option Interpreter;
  (** the bytes [open(model_path, 'rb').read()] returns;
      [None] when it raises *)
  model_content : option string;
  (** the dummy run of [test_inference]: [None] when it raises before
      the time is recorded; otherwise the wall-clock milliseconds of
      [interpreter.invoke()] and whether reading the outputs afterwards
      succeeds *)
  dummy_run : option (Q * bool)
}.

(** Values stored in the [info] dictionary. *)
Inductive Value :=
| VBool (b : bool)
| VInt (z : Z)
| VFloat (q : Q)
| VStr (s : string)
| VList (l : list Z).

(** The messages appended to [errors] and [warnings]; each constructor
    stands for one f-string of the source, with the values it
    interpolates. *)
Inductive Error :=
| ModelFileNotFound
| FailedToLoadModel.

Inductive Warning :=
| LargeForMobile (size_mb : Q)
| MayImpactPerformance (size_mb : Q)
| DynamicShape (i : nat) (shape : list Z)
| NotQuantized
| SelectTfOps
| CouldNotCheckOperations
| HighMemoryUsage (total_memory_mb : Q)
| TestInferenceFailed.

(** [self.validation_results] *)
Record Results := {
  valid : bool;
  errors : list Error;
  warnings : list Warning;
  info : gmap string Value
}.

Definition set_valid (b : bool) (r : Results) : Results :=
  {| valid := b; errors := errors r; warnings := warnings r; info := info r |}.
Definition append_error (e : Error) (r : Results) : Results :=
  {| valid := valid r; errors := errors r ++ [e];
     warnings := warnings r; info := info r |}.
Definition append_warning (w : Warning) (r : Results) : Results :=
  {| valid := valid r; errors := errors r;
     warnings := warnings r ++ [w]; info := info r |}.
Definition set_info (k : string) (v : Value) (r : Results) : Results :=
  {| valid := valid r; errors := errors r; warnings := warnings r;
     info := <[k := v]> (info r) |}.

(** [__init__] *)
Definition init_results : Results :=
  {| valid := true; errors := []; warnings := []; info := ∅ |}.

(** Python truthiness of a stored value ([not v] is its negation). *)
Definition truthy (v : Value) : bool :=
  match v with
  | VBool b => b
  | VInt z => negb (z =? 0)
  | VFloat q => negb (Qeq_bool q 0)
  | VStr s => negb (String.eqb s "")
  | VList l => negb (bool_decide (l = []))
  end.

(** The number a value denotes in a comparison [v > 50]; [None] is the
    [TypeError] of comparing a string or a list with an integer. *)
Definition as_number (v : Value) : option Q :=
  match v with
  | VBool b => Some (if b then 1 else 0)%Q
  | VInt z => Some (inject_Z z)
  | VFloat q => Some q
  | VStr _ | VList _ => None
  end.

(** [_check_file_size] *)
Definition _check_file_size (env : Env) (r : Results) : Results :=
  let size_mb := (inject_Z (st_size env) / inject_Z (1024 * 1024))%Q in
  let r := set_info "size_mb" (VFloat (round2 size_mb)) r in
  if Qgtb size_mb 100 then append_warning (LargeForMobile size_mb) r
  else if Qgtb size_mb 50 then append_warning (MayImpactPerformance size_mb) r
  else r.

(** One round of the first loop of [_check_input_output]. *)
Definition record_input (r : Results) (i : nat) (detail : TensorDetail) : Results :=
  let r :=
    if bool_decide (-1 ∈ shape detail)
    then append_warning (DynamicShape i (shape detail)) r
    else r in
  let r := set_info ("input_" +:+ pretty i +:+ "_shape") (VList (shape detail)) r in
  set_info ("input_" +:+ pretty i +:+ "_type") (VStr (str_dtype (dtype detail))) r.

(** One round of its second loop. *)
Definition record_output (r : Results) (i : nat) (detail : TensorDetail) : Results :=
  let r := set_info ("output_" +:+ pretty i +:+ "_shape") (VList (shape detail)) r in
  set_info ("output_" +:+ pretty i +:+ "_type") (VStr (str_dtype (dtype detail))) r.

(** [for i, detail in enumerate(details): body], from index [i]. *)
Fixpoint for_enumerate (body : Results → nat → TensorDetail → Results)
    (i : nat) (details : list TensorDetail) (r : Results) : Results :=
  match details with
  | [] => r
  | detail :: rest => for_enumerate body (S i) rest (body r i detail)
  end.

(** [_check_input_output] *)
Definition _check_input_output (it : Interpreter) (r : Results) : Results :=
  let r := for_enumerate record_input 0 (get_input_details it) r in
  for_enumerate record_output 0 (get_output_details it) r.

(** [_check_quantization] *)
Definition _check_quantization (it : Interpreter) (r : Results) : Results :=
  let is_quantized :=
    existsb (λ detail, bool_decide (dtype detail ∈ [uint8; int8]))
            (get_input_details it ++ get_output_details it) in
  let r := set_info "quantized" (VBool is_quantized) r in
  if is_quantized then r else append_warning NotQuantized r.

(** [needle in haystack] on byte strings. *)
Fixpoint contains (needle haystack : string) : bool :=
  String.prefix needle haystack ||
  match haystack with
  | EmptyString => false
  | String _ rest => contains needle rest
  end.

(** [_check_operations] *)
Definition _check_operations (env : Env) (r : Results) : Results :=
  match model_content env with
  | Some content =>
      if contains "FlexDelegate" content
      then append_warning SelectTfOps r
      else r
  | None => append_warning CouldNotCheckOperations r
  end.

(** [np.prod([s for s in shape if s > 0])]: an [int64] product. *)
Definition num_elements (shape : list Z) : Z :=
  foldl (λ acc s, wrap64 (acc * s)) 1 (filter (λ s, 0 < s) shape).

(** The accumulation loops of [_check_memory_usage]. *)
Definition tensor_memory (details : list TensorDetail) : Z :=
  foldl (λ memory detail,
           wrap64 (memory + wrap64 (num_elements (shape detail) * itemsize (dtype detail))))
        0 details.

(** [_check_memory_usage] *)
Definition _check_memory_usage (it : Interpreter) (r : Results) : Results :=
  let input_memory := tensor_memory (get_input_details it) in
  let output_memory := tensor_memory (get_output_details it) in
  let total_memory_mb :=
    (inject_Z (wrap64 (input_memory + output_memory)) / inject_Z (1024 * 1024))%Q in
  let r := set_info "estimated_memory_mb" (VFloat (round2 total_memory_mb)) r in
  if Qgtb total_memory_mb 100
  then append_warning (HighMemoryUsage total_memory_mb) r
  else r.

(** [_check_mobile_compatibility].  [None] is the [KeyError] of
    [info['size_mb']] or the [TypeError] of a comparison. *)
Definition _check_mobile_compatibility (r : Results) : option Results :=
  let compatibility_score := 100 in
  let compatibility_score :=
    if negb (truthy (default (VBool false) (info r !! "quantized")))
    then compatibility_score - 20
    else compatibility_score in
  size_mb ← info r !! "size_mb" ≫= as_number;
  let compatibility_score :=
    if Qgtb size_mb 50 then compatibility_score - 15
    else if Qgtb size_mb 20 then compatibility_score - 5
    else compatibility_score in
  memory_mb ← as_number (default (VInt 0) (info r !! "estimated_memory_mb"));
  let compatibility_score :=
    if Qgtb memory_mb 50 then compatibility_score - 10
    else compatibility_score in
  let compatibility_score :=
    if (0 <? length (warnings r))%nat
    then compatibility_score - Z.of_nat (length (warnings r)) * 5
    else compatibility_score in
  Some (set_info "compatibility_score" (VInt (Z.max 0 compatibility_score)) r).

(** [validate] *)
Definition validate (env : Env) : option Results :=
  let r := init_results in
  if negb (path_exists env) then
    Some (append_error ModelFileNotFound (set_valid false r))
  else
    let r := _check_file_size env r in
    match load_interpreter env with
    | None => Some (append_error FailedToLoadModel (set_valid false r))
    | Some it =>
        let r := _check_input_output it r in
        let r := _check_quantization it r in
        let r := _check_operations env r in
        let r := _check_memory_usage it r in
        _check_mobile_compatibility r
    end.

(** [test_inference]: only its effect on [validation_results]. *)
Definition test_inference (env : Env) (r : Results) : Results :=
  match dummy_run env with
  | Some (inference_time, outputs_read) =>
      let r := set_info "cpu_inference_ms" (VFloat (round2 inference_time)) r in
      if outputs_read then r else append_warning TestInferenceFailed r
  | None => append_warning TestInferenceFailed r
  end.

(** The command line: [--test] and [--json]. *)
Record Args := { test : bool; json : bool }.

(** [main]: the status passed to [sys.exit] and the final results. *)
Definition main (args : Args) (env : Env) : option (Z * Results) :=
  results ← validate env;
  let results :=
    if test args && valid results then test_inference env results else results in
  Some (if valid results then 0 else 1, results).

End Validator.

(** ** Effects of the segmentation scripts

    A run is a function from the events that happened so far to the events
    after it, together with either a returned value or a raised
    exception.  The events are kept oldest first. *)

Module Effects.

Inductive Outcome (A : Type) :=
| Returned (a : A)
| Raised.
Arguments Returned {A} a.
Arguments Raised {A}.

Definition Run (Event A : Type) : Type :=
  list Event → list Event * Outcome A.

Section Run.
Context {Event : Type}.

#[export] Instance run_ret : MRet (Run Event) :=
  λ A a h, (h, Returned a).

#[export] Instance run_bind : MBind (Run Event) :=
  λ A B f c h,
    match c h with
    | (h', Returned a) => f a h'
    | (h', Raised) => (h', Raised)
    end.

(** Record that something observable happened. *)
Definition emit (e : Event) : Run Event unit :=
  λ h, (h ++ [e], Returned tt).

(** [raise] *)
Definition raise {A} : Run Event A :=
  λ h, (h, Raised).

(** A call that returns or raises: [None] raises. *)
Definition lift {A} (o : option A) : Run Event A :=
  match o with
  | Some a => mret a
  | None => raise
  end.

(** [try: body except Exception: handler] *)
Definition try_except {A} (body handler : Run Event A) : Run Event A :=
  λ h,
    match body h with
    | (h', Returned a) => (h', Returned a)
    | (h', Raised) => handler h'
    end.

(** [for x in l: body x] *)
Fixpoint for_each {A} (l : list A) (body : A → Run Event unit) : Run Event unit :=
  match l with
  | [] => mret tt
  | x :: rest => body x;; for_each rest body
  end.

End Run.
End Effects.

(** ** Python built-ins shared by the scripts *)

Module PyBuiltins.

(** [range(0, stop, step)] for [stop >= 0], counted up from [i].  The
    fuel is the bound [stop], which no positive step can exhaust. *)
Fixpoint range_from (fuel : nat) (i stop step : Z) : list Z :=
  match fuel with
  | O => []
  | S fuel =>
      if i <? stop then i :: range_from fuel (i + step) stop step else []
  end.

(** [None] is the [ValueError] of a zero step; a negative step yields
    the empty range, since the start [0] is not above [stop]. *)
Definition range0 (stop step : Z) : option (list Z) :=
  if step =? 0 then None
  else if step <? 0 then Some []
  else Some (range_from (Z.to_nat stop) 0 stop step).

(** [l[i:j]] for [0 <= i <= j]. *)
Definition slice {A} (i j : Z) (l : list A) : list A :=
  take (Z.to_nat (j - i)) (drop (Z.to_nat i) l).

(** [s.replace(old, new)] for a non-empty [old]: matches are taken left
    to right and do not overlap; [skip] counts the characters of the
    current match that are still to be dropped. *)
Fixpoint replace_from (skip : nat) (old new s : string) : string :=
  match s with
  | EmptyString => EmptyString
  | String c rest =>
      match skip with
      | S skip' => replace_from skip' old new rest
      | O =>
          if String.prefix old s
          then new +:+ replace_from (String.length old - 1) old new rest
          else String c (replace_from O old new rest)
      end
  end.

Definition replace (old new s : string) : string :=
  replace_from 0 old new s.

(** [d[k]] on a dictionary kept as its items in insertion order. *)
Fixpoint dict_get {V} (d : list (string * V)) (k : string) : option V :=
  match d with
  | [] => None
  | (k', v) :: rest => if String.eqb k' k then Some v else dict_get rest k
  end.

End PyBuiltins.

(** ** bbox_batch_segmentation.py *)

Module BatchSeg.
Import Effects PyBuiltins.

(** A bounding box as read from JSON: a list of integers. *)
Definition Box := list Z.

(** Command-line arguments the loop uses. *)
Record Args := {
  images_dir : string;
  boxes_file : string;
  output_dir : string;
  model : string;
  batch_size : Z
}.

Section Script.
(** Decoded images and the [(H, W)] plane [masks[i, 0]] of one
    object stay abstract. *)
Context {Image Plane : Type}.

Inductive Event :=
(** [print("Warning: Image not found: ...")] *)
| ImageNotFound (img_path : string)
(** the forward pass inside [process_batch] *)
| Inference (images : list Image) (boxes : list (list Box))
(** [Image.fromarray(mask).save(path)] completed *)
| Saved (path : string) (mask : Plane)
(** [print("Error processing batch starting at ...")] *)
| BatchError (first_name : string).

(** The libraries and the machine around the script. *)
Record Env := {
  (** [os.path.join] *)
  path_join : string → string → string;
  (** [Path(p).stem] *)
  path_stem : string → string;
  (** [Path(p).parent / child], as text *)
  path_sibling : string → string → string;
  (** [os.makedirs(p, exist_ok=True)]; [false] when it raises *)
  makedirs : string → bool;
  (** [open] and [json.load] of a file; [None] when one raises *)
  json_load : string → option (list (string * list Box));
  (** [from_pretrained] for model and processor; [false] when it raises *)
  from_pretrained : string → bool;
  (** [os.path.exists] *)
  path_exists : string → bool;
  (** [Image.open(p).convert("RGB")]; [None] when it raises *)
  image_open : string → option Image;
  (** processor, model and post-processing of [process_batch], given
      what happened before the call: per image the planes of its
      objects, or [None] when one of the three raises *)
  forward : list Event → list Image → list (list Box) → option (list (list Plane));
  (** whether [Image.save] to a path succeeds, given what happened
      before the call *)
  can_save : list Event → string → bool
}.

Variable env : Env.
Variable args : Args.

(** [load_boxes] *)
Definition load_boxes (boxes_file : string) : Run Event (list (string * list Box)) :=
  lift (json_load env boxes_file).

(** [process_batch] *)
Definition process_batch (images : list Image) (boxes : list (list Box))
    : Run Event (list (list Plane)) :=
  λ h, (emit (Inference images boxes);; lift (forward env h images boxes)) h.

(** [Image.fromarray(mask).save(path)] *)
Definition image_save (path : string) (mask : Plane) : Run Event unit :=
  λ h, (if can_save env h path then emit (Saved path mask) else raise) h.

(** [save_masks] *)
Definition save_masks (masks : list Plane) (output_path image_name : string)
    : Run Event unit :=
  let num_objects := length masks in
  if (num_objects =? 1)%nat then
    mask ← lift (masks !! 0%nat);
    image_save output_path mask
  else
    let base_name := path_stem env image_name in
    for_each (imap (λ i mask, (i, mask)) masks) (λ '(i, mask),
      let obj_output_path :=
        path_sibling env output_path (base_name +:+ "_obj" +:+ pretty i +:+ ".png") in
      image_save obj_output_path mask).

(** The loop that loads the images and boxes of one batch. *)
Fixpoint load_batch (all_boxes : list (string * list Box)) (batch_names : list string)
    (batch_images : list Image) (batch_boxes : list (list Box))
    : Run Event (list Image * list (list Box)) :=
  match batch_names with
  | [] => mret (batch_images, batch_boxes)
  | name :: rest =>
      let img_path := path_join env (images_dir args) name in
      if negb (path_exists env img_path) then
        emit (ImageNotFound img_path);;
        load_batch all_boxes rest batch_images batch_boxes
      else
        img ← lift (image_open env img_path);
        boxes ← lift (dict_get all_boxes name);
        load_batch all_boxes rest (batch_images ++ [img]) (batch_boxes ++ [boxes])
  end.

(** The file a mask of [name] goes to. *)
Definition output_path_of (name : string) : string :=
  path_join env (output_dir args) (replace ".jpeg" ".png" (replace ".jpg" ".png" name)).

(** The body of the [try]: one inference call, then the save loop
    over [zip(batch_names, batch_masks)]. *)
Definition process_and_save (batch_names : list string)
    (batch_images : list Image) (batch_boxes : list (list Box)) : Run Event unit :=
  batch_masks ← process_batch batch_images batch_boxes;
  for_each (zip batch_names batch_masks) (λ '(name, masks),
    save_masks masks (output_path_of name) name).

(** One round of the batch loop. *)
Definition batch_round (all_boxes : list (string * list Box))
    (batch_names : list string) : Run Event unit :=
  '(batch_images, batch_boxes) ← load_batch all_boxes batch_names [] [];
  if bool_decide (batch_images = []) then mret tt
  else
    try_except
      (process_and_save batch_names batch_images batch_boxes)
      (first_name ← lift (batch_names !! 0%nat);
       emit (BatchError first_name)).

(** [main] *)
Definition main : Run Event unit :=
  (if makedirs env (output_dir args) then mret tt else raise);;
  (if from_pretrained env (model args) then mret tt else raise);;
  all_boxes ← load_boxes (boxes_file args);
  let image_names := all_boxes.*1 in
  let total_images := Z.of_nat (length image_names) in
  starts ← lift (range0 total_images (batch_size args));
  for_each starts (λ i,
    let batch_names := slice i (i + batch_size args) image_names in
    batch_round all_boxes batch_names).

End Script.
End BatchSeg.

(** ** interactive_segmentation.py *)

Module Interactive.
Import Effects PyBuiltins.

(** *** [parse_box] and the built-ins it calls *)

(** [s.split(sep)] for a one-character separator. *)
Fixpoint split (sep : ascii) (s : string) : list string :=
  match s with
  | EmptyString => [EmptyString]
  | String c rest =>
      if Ascii.eqb c sep then EmptyString :: split sep rest
      else
        match split sep rest with
        | tok :: toks => String c tok :: toks
        | [] => [String c EmptyString]
        end
  end.

(** The ASCII characters [int] strips as white space. *)
Definition is_space (c : ascii) : bool :=
  let n := nat_of_ascii c in
  ((9 <=? n) && (n <=? 13) || (28 <=? n) && (n <=? 32))%nat.

Fixpoint lstrip (s : string) : string :=
  match s with
  | EmptyString => EmptyString
  | String c rest => if is_space c then lstrip rest else s
  end.

Fixpoint rstrip (s : string) : string :=
  match s with
  | EmptyString => EmptyString
  | String c rest =>
      match rstrip rest with
      | EmptyString => if is_space c then EmptyString else String c EmptyString
      | kept => String c kept
      end
  end.

Definition strip (s : string) : string := rstrip (lstrip s).

(** The value of a decimal digit character. *)
Definition digit_of (c : ascii) : option Z :=
  let n := nat_of_ascii c in
  if ((48 <=? n) && (n <=? 57))%nat then Some (Z.of_nat n - 48) else None.

(** The digits of a decimal literal, most significant first.  A single
    underscore may separate two digits; [after_digit] tells whether the
    previous character was a digit. *)
Fixpoint int_digits (acc : Z) (after_digit : bool) (s : string) : option Z :=
  match s with
  | EmptyString => if after_digit then Some acc else None
  | String c rest =>
      match digit_of c with
      | Some d => int_digits (10 * acc + d) true rest
      | None =>
          if Ascii.eqb c "_" && after_digit
          then int_digits acc false rest
          else None
      end
  end.

(** [int(s)] on a string, base ten; [None] is [ValueError]. *)
Definition int (s : string) : option Z :=
  match strip s with
  | String "+" rest => int_digits 0 false rest
  | String "-" rest => Z.opp <$> int_digits 0 false rest
  | body => int_digits 0 false body
  end.

(** [parse_box]: the comprehension stops at the first [ValueError]. *)
Definition parse_box (box_str : string) : option (list Z) :=
  mapM int (split "," box_str).

(** *** The segmenter *)

Section Script.
(** A decoded image and the tensors exchanged with the model stay
    abstract. *)
Context {Image Tensor : Type}.

(** What the first forward pass returns: one score and one mask per
    candidate, the image embeddings, and the processor's
    [original_sizes]. *)
Record BoxOutputs := {
  iou_scores : list Q;
  pred_masks : list Tensor;
  out_image_embeddings : Tensor;
  out_original_sizes : Tensor
}.

(** Calls into the model, and the file [save_mask] writes. *)
Inductive Event :=
(** processor and model on the image and [input_boxes] *)
| BoxInference (image : Image) (input_boxes : list (list (list Z)))
(** processor and model on points and labels, with [input_masks] and
    [image_embeddings] *)
| PointInference (input_points : list (Z * Z)) (input_labels : list Z)
    (original_sizes input_masks image_embeddings : option Tensor)
(** [Image.fromarray(mask_img).save(output_path)] completed *)
| MaskSaved (output_path : string) (display_mask : Tensor).

Record Env := {
  (** processor and model of [_initialize_segmentation];
      [None] when one raises *)
  forward_box : Image → list (list (list Z)) → option BoxOutputs;
  (** processor and model of [add_point], returning [pred_masks];
      [None] when one raises *)
  forward_points : list (Z * Z) → list Z → option Tensor → option Tensor →
                   option Tensor → option Tensor;
  (** [post_process_masks(mask.cpu(), sizes, binarize=True)[0][0, 0].numpy()];
      [None] when it raises *)
  post_process : Tensor → option Tensor → option Tensor;
  (** whether [Image.save] to a path succeeds *)
  can_save : string → bool
}.

(** The attributes of an [InteractiveSegmenter]; [None] is Python's
    [None] (for [display_mask]: not assigned yet). *)
Record Segmenter := {
  image : Image;
  initial_box : list Z;
  positive_points : list (Z * Z);
  negative_points : list (Z * Z);
  current_mask : option Tensor;
  image_embeddings : option Tensor;
  original_sizes : option Tensor;
  display_mask : option Tensor
}.

Variable env : Env.

(** [torch.argmax] of a score vector: the first index holding the
    largest score, scanning from index [i] with the best so far. *)
Fixpoint argmax_from (best_idx : nat) (best : Q) (i : nat) (scores : list Q) : nat :=
  match scores with
  | [] => best_idx
  | x :: rest =>
      if PyNum.Qgtb x best then argmax_from i x (S i) rest
      else argmax_from best_idx best (S i) rest
  end.

Definition argmax (scores : list Q) : option nat :=
  match scores with
  | [] => None
  | x :: rest => Some (argmax_from 0 x 1 rest)
  end.

(** [_initialize_segmentation] *)
Definition _initialize_segmentation (s : Segmenter) : Run Event Segmenter :=
  emit (BoxInference (image s) [[initial_box s]]);;
  outputs ← lift (forward_box env (image s) [[initial_box s]]);
  best_mask_idx ← lift (argmax (iou_scores outputs));
  mask ← lift (pred_masks outputs !! best_mask_idx);
  let s :=
    {| image := image s; initial_box := initial_box s;
       positive_points := positive_points s;
       negative_points := negative_points s;
       current_mask := Some mask;
       image_embeddings := Some (out_image_embeddings outputs);
       original_sizes := Some (out_original_sizes outputs);
       display_mask := display_mask s |} in
  display ← lift (post_process env mask (original_sizes s));
  mret {| image := image s; initial_box := initial_box s;
          positive_points := positive_points s;
          negative_points := negative_points s;
          current_mask := current_mask s;
          image_embeddings := image_embeddings s;
          original_sizes := original_sizes s;
          display_mask := Some display |}.

(** [__init__] *)
Definition init (img : Image) (box : list Z) : Run Event Segmenter :=
  _initialize_segmentation
    {| image := img; initial_box := box;
       positive_points := []; negative_points := [];
       current_mask := None; image_embeddings := None;
       original_sizes := None; display_mask := None |}.

(** [add_point] *)
Definition add_point (s : Segmenter) (x y : Z) (is_positive : bool)
    : Run Event Segmenter :=
  let s :=
    {| image := image s; initial_box := initial_box s;
       positive_points :=
         if is_positive then positive_points s ++ [(x, y)] else positive_points s;
       negative_points :=
         if is_positive then negative_points s else negative_points s ++ [(x, y)];
       current_mask := current_mask s;
       image_embeddings := image_embeddings s;
       original_sizes := original_sizes s;
       display_mask := display_mask s |} in
  let all_points := positive_points s ++ negative_points s in
  let all_labels :=
    replicate (length (positive_points s)) 1 ++
    replicate (length (negative_points s)) 0 in
  if bool_decide (all_points = []) then mret s
  else
    emit (PointInference all_points all_labels (original_sizes s)
            (current_mask s) (image_embeddings s));;
    pred ← lift (forward_points env all_points all_labels (original_sizes s)
                   (current_mask s) (image_embeddings s));
    let s :=
      {| image := image s; initial_box := initial_box s;
         positive_points := positive_points s;
         negative_points := negative_points s;
         current_mask := Some pred;
         image_embeddings := image_embeddings s;
         original_sizes := original_sizes s;
         display_mask := display_mask s |} in
    display ← lift (post_process env pred (original_sizes s));
    mret {| image := image s; initial_box := initial_box s;
            positive_points := positive_points s;
            negative_points := negative_points s;
            current_mask := current_mask s;
            image_embeddings := image_embeddings s;
            original_sizes := original_sizes s;
            display_mask := Some display |}.

(** [reset] *)
Definition reset (s : Segmenter) : Run Event Segmenter :=
  _initialize_segmentation
    {| image := image s; initial_box := initial_box s;
       positive_points := []; negative_points := [];
       current_mask := current_mask s;
       image_embeddings := image_embeddings s;
       original_sizes := original_sizes s;
       display_mask := display_mask s |}.

(** [save_mask]; scaling [None] is a [TypeError]. *)
Definition save_mask (s : Segmenter) (output_path : string) : Run Event unit :=
  mask ← lift (display_mask s);
  if can_save env output_path then emit (MaskSaved output_path mask) else raise.

(** The mouse events [mouse_callback] tells apart. *)
Inductive MouseEvent :=
| EVENT_LBUTTONDOWN
| EVENT_RBUTTONDOWN
| EVENT_OTHER.

(** [mouse_callback]; redrawing the window is not modelled. *)
Definition mouse_callback (s : Segmenter) (event : MouseEvent) (x y : Z)
    : Run Event Segmenter :=
  match event with
  | EVENT_LBUTTONDOWN => add_point s x y true
  | EVENT_RBUTTONDOWN => add_point s x y false
  | EVENT_OTHER => mret s
  end.

(** What reaches the window: a mouse event, or a key [cv2.waitKey]
    returns. *)
Inductive Input :=
| Mouse (event : MouseEvent) (x y : Z)
| Key (key : ascii).

(** The main loop of [main] over the inputs of the user, in order: it
    ends on [q], or when the inputs run out. *)
Fixpoint main_loop (output : string) (s : Segmenter) (inputs : list Input)
    : Run Event Segmenter :=
  match inputs with
  | [] => mret s
  | Mouse event x y :: rest =>
      s' ← mouse_callback s event x y;
      main_loop output s' rest
  | Key key :: rest =>
      if Ascii.eqb key "q" then mret s
      else if Ascii.eqb key "r" then
        s' ← reset s;
        main_loop output s' rest
      else if Ascii.eqb key "s" then
        save_mask s output;;
        main_loop output s rest
      else main_loop output s rest
  end.

End Script.
End Interactive.

(** ** model_validator.py, the summary *)

Module ValidatorSummary.
Import PyNum Validator.

(** The lines [print_summary] prints; a line that interpolates a message
    carries the message. *)
Inductive SummaryLine :=
| Rule
| Title
| ModelIsValid
| ValidationFailed
| ErrorsHeader
| ErrorLine (e : Error)
| WarningsHeader (n : nat)
| WarningLine (w : Warning)
| RecommendationsHeader
| ApplyQuantization
| SmallerArchitecture
| TestOnRealDevices
| ProfileOnTarget.

(** [print_summary]: the lines printed; [None] is the [TypeError] of
    comparing a non-number with 20. *)
Definition print_summary (r : Results) : option (list SummaryLine) :=
  let head := [Rule; Title; Rule] in
  let verdict := [if valid r then ModelIsValid else ValidationFailed] in
  let errs :=
    if bool_decide (errors r = []) then []
    else ErrorsHeader :: (ErrorLine <$> errors r) in
  let warns :=
    if bool_decide (warnings r = []) then []
    else WarningsHeader (length (warnings r)) :: (WarningLine <$> warnings r) in
  let rec1 :=
    if negb (truthy (default (VBool false) (info r !! "quantized")))
    then [ApplyQuantization] else [] in
  size_mb ← as_number (default (VInt 0) (info r !! "size_mb"));
  let rec2 := if Qgtb size_mb 20 then [SmallerArchitecture] else [] in
  Some (head ++ verdict ++ errs ++ warns ++ [RecommendationsHeader] ++
        rec1 ++ rec2 ++ [TestOnRealDevices; ProfileOnTarget]).

End ValidatorSummary.

(* ===================================================================== *)
(** * Part II.  Vocabulary of the specification *)
(* ===================================================================== *)

Module ValidatorSpec.
Import PyNum Validator.

(** The fixed penalties the specification lists. *)
Definition quantization_penalty (quantized : bool) : Z :=
  if quantized then 0 else 20.

Definition size_penalty (size_mb : Q) : Z :=
  if Qgtb size_mb 50 then 15 else if Qgtb size_mb 20 then 5 else 0.

Definition memory_penalty (memory_mb : Q) : Z :=
  if Qgtb memory_mb 50 then 10 else 0.

(** "Starts at 100; subtracts fixed penalties per detected issue". *)
Definition additive_score (quantized : bool) (size_mb memory_mb : Q)
    (n_warnings : nat) : Z :=
  100 - quantization_penalty quantized - size_penalty size_mb
      - memory_penalty memory_mb - 5 * Z.of_nat n_warnings.

(** The score a finished validation stored, if any. *)
Definition stored_score (r : Results) : option Z :=
  match info r !! "compatibility_score" with
  | Some (VInt z) => Some z
  | _ => None
  end.

(** What the earlier checks record for the scoring step: whether some
    input or output tensor is 8-bit, the file size in MB and the
    estimated tensor memory in MB, both rounded to two decimals. *)
Definition recorded_quantized (it : Interpreter) : bool :=
  existsb (λ detail, bool_decide (dtype detail ∈ [uint8; int8]))
          (get_input_details it ++ get_output_details it).

Definition recorded_size_mb (env : Env) : Q :=
  round2 (inject_Z (st_size env) / inject_Z (1024 * 1024)).

Definition recorded_memory_mb (it : Interpreter) : Q :=
  round2 (inject_Z (wrap64 (tensor_memory (get_input_details it) +
                            tensor_memory (get_output_details it)))
          / inject_Z (1024 * 1024)).

(** The state [validate] hands to the scoring step once the file exists
    and the interpreter [it] is loaded. *)
Definition before_scoring (env : Env) (it : Interpreter) : Results :=
  _check_memory_usage it
    (_check_operations env
       (_check_quantization it
          (_check_input_output it
             (_check_file_size env init_results)))).

(** A check that turns [r] into [r'] leaves [valid], [errors] and the
    entry [k] of [info] as they were. *)
Definition frame (k : string) (r r' : Results) : Prop :=
  valid r' = valid r ∧ errors r' = errors r ∧ info r' !! k = info r !! k.

(** "Pass": no error was recorded. *)
Definition passes (env : Env) : bool :=
  path_exists env && bool_decide (is_Some (load_interpreter env)).

(** Sample inputs: a 57 MB float model with a dynamic input shape and
    select-TF operators, its quantized 12 MB counterpart, and the two
    states they reach before scoring. *)
Definition sample_float_model : Interpreter :=
  {| get_input_details := [{| shape := [1; -1; 224; 3]; dtype := float32 |}];
     get_output_details := [{| shape := [1; 1000]; dtype := float32 |}] |}.

Definition sample_float_env : Env :=
  {| path_exists := true; st_size := 60000000;
     load_interpreter := Some sample_float_model;
     model_content := Some "TFL3....FlexDelegate....";
     dummy_run := Some ((7 # 2)%Q, true) |}.

Definition sample_int8_model : Interpreter :=
  {| get_input_details := [{| shape := [1; 224; 224; 3]; dtype := uint8 |}];
     get_output_details := [{| shape := [1; 1000]; dtype := uint8 |}] |}.

Definition sample_int8_env : Env :=
  {| path_exists := true; st_size := 12582912;
     load_interpreter := Some sample_int8_model;
     model_content := Some "TFL3....";
     dummy_run := None |}.

End ValidatorSpec.

Module BatchSegSpec.
Import Effects PyBuiltins BatchSeg.

(** [ceil(n / b)] for a positive [b]. *)
Definition ceil_div (n b : Z) : Z := (n + b - 1) / b.

Section Vocabulary.
Context {Image Plane : Type}.
Variable env : @Env Image Plane.
Variable args : Args.

(** The number of inference calls in a run. *)
Definition is_inference (e : @Event Image Plane) : bool :=
  match e with Inference _ _ => true | _ => false end.

Definition inference_calls (h : list (@Event Image Plane)) : nat :=
  length (filter (λ e, is_inference e = true) h).

(** The image file of a listed name is there. *)
Definition image_exists (name : string) : bool :=
  path_exists env (path_join env (images_dir args) name).

(** The names of a batch whose image file exists, in order. *)
Definition existing (batch_names : list string) : list string :=
  filter (λ name, image_exists name = true) batch_names.

(** The batches the loop of [main] walks through. *)
Definition batches (image_names : list string) : list (list string) :=
  match range0 (Z.of_nat (length image_names)) (batch_size args) with
  | Some starts =>
      (λ i, slice i (i + batch_size args) image_names) <$> starts
  | None => []
  end.

(** The files [save_masks] sets out to write for one image, in order. *)
Definition planned_saves (name : string) (masks : list Plane)
    : list (string * Plane) :=
  match masks with
  | [mask] => [(output_path_of env args name, mask)]
  | _ =>
      imap (λ i mask,
              (path_sibling env (output_path_of env args name)
                 (path_stem env name +:+ "_obj" +:+ pretty i +:+ ".png"),
               mask)) masks
  end.

(** The event of one completed file write. *)
Definition saved_event (file : string * Plane) : @Event Image Plane :=
  Saved file.1 file.2.

(** Saving a list of files in order. *)
Definition save_all (files : list (string * Plane)) : Run (@Event Image Plane) unit :=
  for_each files (λ '(path, mask), image_save env path mask).

(** The files the save loop sets out to write for a whole batch. *)
Definition planned_batch_saves (batch_names : list string)
    (batch_masks : list (list Plane)) : list (string * Plane) :=
  mjoin ((λ '(name, masks), planned_saves name masks) <$> zip batch_names batch_masks).

End Vocabulary.

(** Sample runs: plain path functions, images and planes named by
    strings, a model that returns one plane per image. *)
Definition sample_args : Args :=
  {| images_dir := "images"; boxes_file := "boxes.json";
     output_dir := "masks"; model := "yonigozlan/EdgeTAM-hf";
     batch_size := 2 |}.

Definition sample_env (present : list string) (model_ok : bool)
    (unwritable : list string) : @Env string string :=
  {| path_join := λ a b, a +:+ "/" +:+ b;
     path_stem := λ p, p;
     path_sibling := λ p child, p +:+ "/../" +:+ child;
     makedirs := λ _, true;
     json_load := λ _,
       Some [("a.jpg", [[0; 0; 10; 10]]); ("b.jpg", [[1; 1; 5; 5]]);
             ("c.jpg", [[2; 2; 8; 8]])];
     from_pretrained := λ _, true;
     path_exists := λ p, bool_decide (p ∈ present);
     image_open := λ p, Some ("image of " +:+ p);
     forward := λ _ images _,
       if model_ok then Some ((λ img, ["mask of " +:+ img]) <$> images) else None;
     can_save := λ _ p, negb (bool_decide (p ∈ unwritable)) |}.

(** The boxes file all sample runs read. *)
Definition sample_boxes : list (string * list Box) :=
  [("a.jpg", [[0; 0; 10; 10]]); ("b.jpg", [[1; 1; 5; 5]]); ("c.jpg", [[2; 2; 8; 8]])].

(** Only the third image file is present. *)
Definition sparse_env : @Env string string :=
  sample_env ["images/c.jpg"] true [].

(** The first image file is missing. *)
Definition first_missing_env : @Env string string :=
  sample_env ["images/b.jpg"; "images/c.jpg"] true [].

(** All image files are present, the second mask cannot be written. *)
Definition unwritable_env : @Env string string :=
  sample_env ["images/a.jpg"; "images/b.jpg"; "images/c.jpg"] true ["masks/b.png"].

End BatchSegSpec.

Module InteractiveSpec.
Import Effects Interactive.

(** *** Integer literals *)









(** Every character of a string passes a test. *)
Fixpoint all_chars (test : ascii → bool) (s : string) : bool :=
  match s with
  | EmptyString => true
  | String c rest => test c && all_chars test rest
  end.

(** *** Clicks *)

(** A click: where, and whether it is positive (left button). *)
Definition Click : Type := Z * Z * bool.

Definition click_input (c : Click) : Input :=
  Mouse (if c.2 then EVENT_LBUTTONDOWN else EVENT_RBUTTONDOWN) c.1.1 c.1.2.

(** The points in the order they were clicked. *)
Definition chronological (clicks : list Click) : list (Z * Z) :=
  fst <$> clicks.

(** The positive, respectively negative, points in click order. *)
Definition positives (clicks : list Click) : list (Z * Z) :=
  fst <$> filter (λ c, c.2 = true) clicks.

Definition negatives (clicks : list Click) : list (Z * Z) :=
  fst <$> filter (λ c, c.2 = false) clicks.

(** Sample session: images and tensors named by strings; the model
    returns three candidate masks, then refines by naming its inputs. *)
Definition sample_env : @Env string string :=
  {| forward_box := λ img boxes,
       Some {| iou_scores := [(1 # 2)%Q; (9 # 10)%Q; (7 # 10)%Q];
               pred_masks := ["low"; "best"; "mid"];
               out_image_embeddings := "embeddings of " +:+ img;
               out_original_sizes := "sizes of " +:+ img |};
     forward_points := λ points labels sizes mask emb,
       Some ("refined " +:+ default "" mask);
     post_process := λ mask sizes, Some ("display of " +:+ mask);
     can_save := λ path, true |}.

(** The state the sample session is constructed in, for the box
    [100,100,500,500] on the image "photo". *)
Definition sample_initial : @Segmenter string string :=
  {| image := "photo"; initial_box := [100; 100; 500; 500];
     positive_points := []; negative_points := [];
     current_mask := Some "best";
     image_embeddings := Some "embeddings of photo";
     original_sizes := Some "sizes of photo";
     display_mask := Some "display of best" |}.

End InteractiveSpec.

Module ValidatorMoreSpec.
Import PyNum Validator ValidatorSpec.

(** The file size in MB before rounding, and the estimated tensor memory
    in MB before rounding. *)
Definition exact_size_mb (env : Env) : Q :=
  inject_Z (st_size env) / inject_Z (1024 * 1024).

Definition exact_memory_mb (it : Interpreter) : Q :=
  inject_Z (wrap64 (tensor_memory (get_input_details it) +
                    tensor_memory (get_output_details it)))
  / inject_Z (1024 * 1024).

(** The warnings each check adds. *)
Definition size_warnings (env : Env) : list Warning :=
  if Qgtb (exact_size_mb env) 100 then [LargeForMobile (exact_size_mb env)]
  else if Qgtb (exact_size_mb env) 50 then [MayImpactPerformance (exact_size_mb env)]
  else [].

Fixpoint dynamic_warnings (i : nat) (details : list TensorDetail) : list Warning :=
  match details with
  | [] => []
  | detail :: rest =>
      (if bool_decide (-1 ∈ shape detail) then [DynamicShape i (shape detail)] else [])
      ++ dynamic_warnings (S i) rest
  end.

Definition quantization_warnings (it : Interpreter) : list Warning :=
  if recorded_quantized it then [] else [NotQuantized].

Definition operations_warnings (env : Env) : list Warning :=
  match model_content env with
  | Some content => if contains "FlexDelegate" content then [SelectTfOps] else []
  | None => [CouldNotCheckOperations]
  end.

Definition memory_warnings (it : Interpreter) : list Warning :=
  if Qgtb (exact_memory_mb it) 100 then [HighMemoryUsage (exact_memory_mb it)] else [].

(** [needle] occurs somewhere in [haystack]. *)
Definition occurs_in (needle haystack : string) : Prop :=
  ∃ before after, haystack = before +:+ needle +:+ after.



(** A string without an underscore. *)
Fixpoint no_underscore (s : string) : bool :=
  match s with
  | EmptyString => true
  | String c rest => negb (Ascii.eqb c "_") && no_underscore rest
  end.

(** The entries of [info] for one tensor. *)
Definition shape_entry (detail : TensorDetail) : Value := VList (shape detail).
Definition type_entry (detail : TensorDetail) : Value := VStr (str_dtype (dtype detail)).

End ValidatorMoreSpec.

Module BatchSegMoreSpec.
Import Effects PyBuiltins BatchSeg BatchSegSpec.

(** A string in which the character [c] does not occur. *)
Fixpoint free_of (c : ascii) (s : string) : bool :=
  match s with
  | EmptyString => true
  | String c' rest => negb (Ascii.eqb c' c) && free_of c rest
  end.

Section Vocabulary.
Context {Image Plane : Type}.

(** An inference call on a batch that is not empty, holds at most [B]
    images and has one box list per image; other events pass. *)
Definition well_sized (B : Z) (e : @Event Image Plane) : Prop :=
  match e with
  | Inference images boxes =>
      (0 < length images ≤ Z.to_nat B)%nat ∧ length boxes = length images
  | _ => True
  end.

(** Only warnings about missing images were printed. *)
Definition only_not_found (h : list (@Event Image Plane)) : Prop :=
  ∃ paths, h = ImageNotFound <$> paths.

End Vocabulary.

(** A run whose model call always raises. *)
Definition broken_model_env : @Env string string :=
  sample_env ["images/a.jpg"; "images/b.jpg"; "images/c.jpg"] false [].

(** The sample arguments with [--batch_size 0]. *)
Definition zero_batch_args : Args :=
  {| images_dir := "images"; boxes_file := "boxes.json";
     output_dir := "masks"; model := "yonigozlan/EdgeTAM-hf";
     batch_size := 0 |}.

End BatchSegMoreSpec.

Module InteractiveMoreSpec.
Import Effects Interactive InteractiveSpec.

(** How often a character occurs in a string. *)
Fixpoint count_char (c : ascii) (s : string) : nat :=
  match s with
  | EmptyString => 0%nat
  | String c' rest => ((if Ascii.eqb c' c then 1 else 0) + count_char c rest)%nat
  end.

(** A string of white space only (the empty string included). *)
Definition blank (s : string) : Prop := all_chars is_space s = true.

(** A string without a comma. *)
Definition comma_free (s : string) : Prop :=
  all_chars (λ c, negb (Ascii.eqb c ",")) s = true.




(** The inputs the window reacts to: a button press, or one of the keys
    [q], [r], [s]. *)
Definition relevant (i : Input) : bool :=
  match i with
  | Mouse EVENT_OTHER _ _ => false
  | Mouse _ _ _ => true
  | Key key => Ascii.eqb key "q" || Ascii.eqb key "r" || Ascii.eqb key "s"
  end.

Section Vocabulary.
Context {Image Tensor : Type}.

(** The display mask is the post-processed stored mask. *)
Definition in_sync (env : @Env Image Tensor) (s : @Segmenter Image Tensor) : Prop :=
  ∃ mask display,
    current_mask s = Some mask ∧
    display_mask s = Some display ∧
    post_process env mask (original_sizes s) = Some display.


End Vocabulary.

End InteractiveMoreSpec.

(* ===================================================================== *)
(** * Part III.  Properties *)
(* ===================================================================== *)

(** ** The models on small inputs *)

Module Checks.
Import PyNum PyBuiltins Validator ValidatorSpec Interactive.

Example round2_tie_to_even : round2 (1 # 8) = (3 # 25)%Q ∧ round2 (3 # 8) = (19 # 50)%Q.
Proof. split; reflexivity. Qed.

Example range0_uneven : range0 7 3 = Some [0; 3; 6].
Proof. reflexivity. Qed.

Example range0_even : range0 6 3 = Some [0; 3].
Proof. reflexivity. Qed.

Example range0_zero_step : range0 5 0 = None.
Proof. reflexivity. Qed.

Example range0_negative_step : range0 5 (-2) = Some [].
Proof. reflexivity. Qed.

Example slice_last_batch : slice 6 (6 + 3) ["a"; "b"; "c"; "d"; "e"; "f"; "g"] = ["g"].
Proof. reflexivity. Qed.

Example replace_jpg :
  replace ".jpeg" ".png" (replace ".jpg" ".png" "cat.jpg") = "cat.png".
Proof. reflexivity. Qed.

Example replace_jpeg :
  replace ".jpeg" ".png" (replace ".jpg" ".png" "cat.jpeg") = "cat.png".
Proof. reflexivity. Qed.

Example replace_no_overlap : replace "aa" "b" "aaaaa" = "bba".
Proof. reflexivity. Qed.

Example parse_box_usage : parse_box "100,100,500,500" = Some [100; 100; 500; 500].
Proof. reflexivity. Qed.

Example parse_box_spaces_and_underscore : parse_box " -1, +2 ,3_0,007" = Some [-1; 2; 30; 7].
Proof. reflexivity. Qed.

Example parse_box_empty_field : parse_box "1,,2" = None.
Proof. reflexivity. Qed.

Example parse_box_not_a_number : parse_box "1,two" = None.
Proof. reflexivity. Qed.

Example sample_float_score :
  (validate sample_float_env ≫= stored_score) = Some 45.
Proof. reflexivity. Qed.

Example sample_float_warnings :
  warnings <$> validate sample_float_env =
    Some [MayImpactPerformance (60000000 # 1048576)%Q; DynamicShape 0 [1; -1; 224; 3];
          NotQuantized; SelectTfOps].
Proof. reflexivity. Qed.

Example sample_int8_score :
  (validate sample_int8_env ≫= stored_score) = Some 100.
Proof. reflexivity. Qed.

Example missing_file_exit_code :
  fst <$> main {| test := true; json := false |}
            {| path_exists := false; st_size := 0; load_interpreter := None;
               model_content := None; dummy_run := None |} = Some 1.
Proof. reflexivity. Qed.

End Checks.

Module ValidatorFacts.
Import PyNum Validator ValidatorSpec.

Lemma Qgtb_true a b : Qgtb a b = true ↔ (b < a)%Q.
Proof.
  unfold Qgtb. rewrite negb_true_iff, <- not_true_iff_false, Qle_bool_iff.
  split; [apply Qnot_le_lt | apply Qlt_not_le].
Qed.




(** The scoring step on a state whose three inputs have the types the
    earlier checks give them. *)
Lemma check_mobile_compatibility_eq r q s m :
  info r !! "quantized" = Some (VBool q) →
  info r !! "size_mb" = Some (VFloat s) →
  info r !! "estimated_memory_mb" = Some (VFloat m) →
  _check_mobile_compatibility r =
    Some (set_info "compatibility_score"
            (VInt (Z.max 0 (additive_score q s m (length (warnings r))))) r).
Proof.
  intros Hq Hs Hm. unfold _check_mobile_compatibility.
  rewrite Hq, Hs, Hm. simpl.
  unfold additive_score, quantization_penalty, size_penalty, memory_penalty.
  do 2 f_equal. f_equal. f_equal.
  destruct q, (Qgtb s 50), (Qgtb s 20), (Qgtb m 50),
    (length (warnings r)) eqn:E; simpl; lia.
Qed.

Lemma stored_score_set_info z r :
  stored_score (set_info "compatibility_score" (VInt z) r) = Some z.
Proof. unfold stored_score. simpl. by rewrite lookup_insert_eq. Qed.

(** *** What each check leaves untouched *)

Lemma frame_refl k r : frame k r r.
Proof. by unfold frame. Qed.

Lemma frame_trans k r1 r2 r3 : frame k r1 r2 → frame k r2 r3 → frame k r1 r3.
Proof. unfold frame. intros (?&?&?) (?&?&?). repeat split; congruence. Qed.

Lemma frame_append_warning k w r : frame k r (append_warning w r).
Proof. by unfold frame. Qed.

Lemma frame_set_info k k' v r : k' ≠ k → frame k r (set_info k' v r).
Proof. intros. unfold frame. simpl. by rewrite lookup_insert_ne. Qed.

Create HintDb frame.
#[local] Hint Resolve frame_refl frame_append_warning : frame.

Lemma frame_for_enumerate k body :
  (∀ r i d, frame k r (body r i d)) →
  ∀ l i r, frame k r (for_enumerate body i l r).
Proof.
  intros Hbody l. induction l as [|d l IH]; intros i r; simpl.
  - apply frame_refl.
  - eapply frame_trans; [apply Hbody | apply IH].
Qed.

Lemma frame_record_input k r i d :
  (∀ s, k ≠ "input_" +:+ s) → frame k r (record_input r i d).
Proof.
  intros Hk. unfold record_input.
  eapply frame_trans; [|apply frame_set_info; apply not_eq_sym, Hk].
  eapply frame_trans; [|apply frame_set_info; apply not_eq_sym, Hk].
  case_bool_decide; auto with frame.
Qed.

Lemma frame_record_output k r i d :
  (∀ s, k ≠ "output_" +:+ s) → frame k r (record_output r i d).
Proof.
  intros Hk. unfold record_output.
  eapply frame_trans; apply frame_set_info; apply not_eq_sym, Hk.
Qed.

Lemma frame_check_input_output k it r :
  (∀ s, k ≠ "input_" +:+ s) → (∀ s, k ≠ "output_" +:+ s) →
  frame k r (_check_input_output it r).
Proof.
  intros Hi Ho. unfold _check_input_output.
  eapply frame_trans; apply frame_for_enumerate; intros.
  - by apply frame_record_input.
  - by apply frame_record_output.
Qed.

Lemma frame_check_file_size k env r :
  k ≠ "size_mb" → frame k r (_check_file_size env r).
Proof.
  intros Hk. unfold _check_file_size.
  repeat case_match; repeat (eapply frame_trans; [|apply frame_append_warning]);
    by apply frame_set_info.
Qed.

Lemma frame_check_quantization k it r :
  k ≠ "quantized" → frame k r (_check_quantization it r).
Proof.
  intros Hk. unfold _check_quantization.
  case_match; repeat (eapply frame_trans; [|apply frame_append_warning]);
    by apply frame_set_info.
Qed.

Lemma frame_check_operations k env r : frame k r (_check_operations env r).
Proof. unfold _check_operations. repeat case_match; auto with frame. Qed.

Lemma frame_check_memory_usage k it r :
  k ≠ "estimated_memory_mb" → frame k r (_check_memory_usage it r).
Proof.
  intros Hk. unfold _check_memory_usage.
  case_match; repeat (eapply frame_trans; [|apply frame_append_warning]);
    by apply frame_set_info.
Qed.

(** *** The state that reaches the scoring step *)

Lemma before_scoring_spec env it :
  let r := before_scoring env it in
  valid r = true ∧ errors r = [] ∧
  info r !! "quantized" = Some (VBool (recorded_quantized it)) ∧
  info r !! "size_mb" = Some (VFloat (recorded_size_mb env)) ∧
  info r !! "estimated_memory_mb" = Some (VFloat (recorded_memory_mb it)).
Proof.
  unfold before_scoring.
  set (r1 := _check_file_size env init_results).
  set (r2 := _check_input_output it r1).
  set (r3 := _check_quantization it r2).
  set (r4 := _check_operations env r3).
  set (r5 := _check_memory_usage it r4). cbv zeta.
  assert (Hs : info r1 !! "size_mb" = Some (VFloat (recorded_size_mb env))).
  { unfold r1, _check_file_size. cbv zeta.
    repeat case_match; cbn [info set_info append_warning]; apply lookup_insert_eq. }
  assert (Hq : info r3 !! "quantized" = Some (VBool (recorded_quantized it))).
  { unfold r3, _check_quantization. cbv zeta. fold (recorded_quantized it).
    case_match; cbn [info set_info append_warning]; apply lookup_insert_eq. }
  assert (Hm : info r5 !! "estimated_memory_mb" = Some (VFloat (recorded_memory_mb it))).
  { unfold r5, _check_memory_usage. cbv zeta.
    case_match; cbn [info set_info append_warning]; apply lookup_insert_eq. }
  assert (F01 : frame "" init_results r1) by by apply frame_check_file_size.
  assert (F12 : ∀ k, (∀ s, k ≠ "input_" +:+ s) → (∀ s, k ≠ "output_" +:+ s) →
                     frame k r1 r2) by (intros; by apply frame_check_input_output).
  assert (F23 : ∀ k, k ≠ "quantized" → frame k r2 r3)
    by (intros; by apply frame_check_quantization).
  assert (F34 : ∀ k, frame k r3 r4) by (intros; apply frame_check_operations).
  assert (F45 : ∀ k, k ≠ "estimated_memory_mb" → frame k r4 r5)
    by (intros; by apply frame_check_memory_usage).
  assert (F05 : frame "" init_results r5).
  { eapply frame_trans; [apply F01|]. eapply frame_trans; [by apply F12|].
    eapply frame_trans; [by apply F23|]. eapply frame_trans; [apply F34|].
    by apply F45. }
  destruct F05 as (Hv & He & _). split; [done|]. split; [done|].
  split; [|split; [|done]].
  - destruct (F34 "quantized") as (_&_&E34).
    destruct (F45 "quantized") as (_&_&E45); [done|]. congruence.
  - destruct (F12 "size_mb") as (_&_&E12); [done..|].
    destruct (F23 "size_mb") as (_&_&E23); [done|].
    destruct (F34 "size_mb") as (_&_&E34).
    destruct (F45 "size_mb") as (_&_&E45); [done|]. congruence.
Qed.


Lemma additive_score_eq q s m n :
  additive_score q s m n =
    100 - (if q then 0 else 20)
        - (if Qgtb s 50 then 15 else if Qgtb s 20 then 5 else 0)
        - (if Qgtb m 50 then 10 else 0)
        - 5 * Z.of_nat n.
Proof. reflexivity. Qed.

Lemma validate_passing env it :
  path_exists env = true → load_interpreter env = Some it →
  validate env = _check_mobile_compatibility (before_scoring env it).
Proof. intros He Hl. unfold validate. by rewrite He, Hl. Qed.

(** *** C1 *)



(** *** C3 *)



(** *** C7 *)

(** C7.  [main] always reaches [sys.exit]; the status is 1 exactly when
    an error was recorded, which happens exactly when the model file
    does not exist or the interpreter fails to load, and 0 otherwise.
    The status is a function of these two facts alone, so nothing that
    only produces warnings (size, shapes, quantization, operators,
    memory, the test inference) changes it. *)
Theorem exit_code_pass_fail args env :
  ∃ code r,
    main args env = Some (code, r) ∧
    (code = 0 ∨ code = 1) ∧
    (code = 1 ↔ errors r ≠ []) ∧
    (errors r ≠ [] ↔ path_exists env = false ∨ load_interpreter env = None) ∧
    code = (if passes env then 0 else 1).
Proof.
  unfold main, passes, validate.
  destruct (path_exists env) eqn:He; simpl.
  2:{ eexists _, _. split; [reflexivity|]. rewrite andb_false_r. simpl.
      repeat split; auto; try done. }
  destruct (load_interpreter env) as [it|] eqn:Hl; simpl.
  2:{ eexists _, _. split; [reflexivity|]. rewrite andb_false_r. simpl.
      assert (errors (_check_file_size env init_results) = []) as ->
        by (by destruct (frame_check_file_size "" env init_results) as (_&?&_)).
      repeat split; auto; try done. }
  destruct (before_scoring_spec env it) as (Hv & Herr & Hq & Hs & Hm).
  fold (before_scoring env it).
  rewrite (check_mobile_compatibility_eq _ _ _ _ Hq Hs Hm).
  set (r6 := set_info _ _ _).
  assert (Hv6 : valid r6 = true) by done.
  assert (He6 : errors r6 = []) by done.
  simpl. rewrite Hv, andb_true_r.
  assert (valid (if test args then test_inference env r6 else r6) = true ∧
          errors (if test args then test_inference env r6 else r6) = [])
    as [Hv' He'].
  { unfold test_inference.
    destruct (test args), (dummy_run env) as [[ms []]|]; simpl; done. }
  eexists _, _. split; [reflexivity|]. rewrite Hv', He'.
  repeat split; auto; try done. intros [|]; done.
Qed.

End ValidatorFacts.

Module EffectsFacts.
Import Effects.

Section Run.
Context {Event : Type}.
Implicit Types h : list Event.

Lemma bind_eq {A B} (c : Run Event A) (f : A → Run Event B) h :
  (c ≫= f) h =
    match c h with
    | (h', Returned a) => f a h'
    | (h', Raised) => (h', Raised)
    end.
Proof. reflexivity. Qed.



Lemma for_each_fmap {A B} (f : A → B) (body : B → Run Event unit) l h :
  for_each (f <$> l) body h = for_each l (λ x, body (f x)) h.
Proof.
  revert h. induction l as [|x l IH]; intros h; simpl; [done|].
  rewrite !bind_eq. destruct (body (f x) h) as [h' [[]|]]; auto.
Qed.


Lemma for_each_app {A} (body : A → Run Event unit) l1 l2 h :
  for_each (l1 ++ l2) body h = (for_each l1 body;; for_each l2 body) h.
Proof.
  revert h. induction l1 as [|x l1 IH]; intros h; simpl; [done|].
  rewrite !bind_eq. destruct (body x h) as [h' [[]|]]; [|done].
  by rewrite IH, bind_eq.
Qed.

Lemma for_each_cons_returned {A} (body : A → Run Event unit) x l h h' :
  body x h = (h', Returned tt) → for_each (x :: l) body h = for_each l body h'.
Proof. intros E. simpl. by rewrite bind_eq, E. Qed.

End Run.
End EffectsFacts.

Module PyBuiltinsFacts.
Import PyBuiltins BatchSegSpec.

Lemma ceil_div_step n b : 0 < b → ceil_div n b = 1 + ceil_div (n - b) b.
Proof.
  intros Hb. unfold ceil_div.
  replace (n + b - 1) with (n - b + b - 1 + 1 * b) by lia.
  rewrite Z.div_add by lia. lia.
Qed.

Lemma ceil_div_nonpos n b : 0 < b → n ≤ 0 → ceil_div n b ≤ 0.
Proof.
  intros Hb Hn. unfold ceil_div.
  assert ((n + b - 1) / b < 1); [|lia].
  apply Z.div_lt_upper_bound; lia.
Qed.

Lemma ceil_div_pos n b : 0 < b → 0 < n → 0 < ceil_div n b.
Proof.
  intros Hb Hn. unfold ceil_div.
  assert (1 ≤ (n + b - 1) / b); [|lia].
  apply Z.div_le_lower_bound; lia.
Qed.

Lemma range_from_length fuel i stop step :
  0 < step → stop - i ≤ Z.of_nat fuel →
  Z.of_nat (length (range_from fuel i stop step)) = Z.max 0 (ceil_div (stop - i) step).
Proof.
  intros Hstep. revert i. induction fuel as [|fuel IH]; intros i Hfuel; simpl.
  - pose proof (ceil_div_nonpos (stop - i) step). lia.
  - destruct (Z.ltb_spec i stop) as [Hlt|Hge]; simpl.
    + rewrite Nat2Z.inj_succ, IH by lia.
      rewrite (ceil_div_step (stop - i) step) by done.
      replace (stop - (i + step)) with (stop - i - step) by lia.
      destruct (Z.le_gt_cases (stop - i - step) 0).
      * pose proof (ceil_div_nonpos (stop - i - step) step).
        assert (0 ≤ ceil_div (stop - i - step) step); [|lia].
        unfold ceil_div. apply Z.div_pos; lia.
      * pose proof (ceil_div_pos (stop - i - step) step). lia.
    + pose proof (ceil_div_nonpos (stop - i) step). lia.
Qed.

Lemma range_from_bounds fuel i stop step x :
  0 < step → x ∈ range_from fuel i stop step → i ≤ x < stop.
Proof.
  intros Hstep. revert i. induction fuel as [|fuel IH]; intros i; simpl.
  - by intros ?%elem_of_nil.
  - destruct (Z.ltb_spec i stop) as [Hlt|Hge]; [|by intros ?%elem_of_nil].
    intros [->|Hx%IH]%elem_of_cons; lia.
Qed.

(** [range(0, n, b)] has [ceil(n / b)] elements, all in [0, n). *)
Lemma range0_positive_step n b :
  0 ≤ n → 0 < b →
  ∃ starts, range0 n b = Some starts ∧
    Z.of_nat (length starts) = ceil_div n b ∧
    ∀ i, i ∈ starts → 0 ≤ i < n.
Proof.
  intros Hn Hb. unfold range0.
  destruct (Z.eqb_spec b 0); [lia|]. destruct (Z.ltb_spec b 0); [lia|].
  eexists. split; [done|]. split.
  - rewrite range_from_length by lia. rewrite Z.sub_0_r.
    assert (0 ≤ ceil_div n b); [|lia].
    unfold ceil_div. apply Z.div_pos; lia.
  - intros i. by apply range_from_bounds.
Qed.

Lemma slice_length {A} (l : list A) i b :
  0 ≤ i < Z.of_nat (length l) → 0 < b →
  (0 < length (slice i (i + b) l) ≤ Z.to_nat b)%nat.
Proof.
  intros Hi Hb. unfold slice.
  rewrite length_take, length_drop. lia.
Qed.

End PyBuiltinsFacts.

Module BatchSegFacts.
Import Effects PyBuiltins BatchSeg BatchSegSpec EffectsFacts PyBuiltinsFacts.

Section Script.
Context {Image Plane : Type}.
Variable env : @Env Image Plane.
Variable args : Args.
Implicit Types h : list (@Event Image Plane).

Local Abbreviation Ev := (@Event Image Plane).

Lemma inference_calls_app h1 h2 :
  inference_calls (h1 ++ h2) = (inference_calls h1 + inference_calls h2)%nat.
Proof. unfold inference_calls. by rewrite filter_app, length_app. Qed.

Lemma inference_calls_not_found (paths : list string) :
  inference_calls (ImageNotFound <$> paths : list Ev) = 0%nat.
Proof. induction paths; done. Qed.

Lemma inference_calls_saved (files : list (string * Plane)) :
  inference_calls (saved_event <$> files : list Ev) = 0%nat.
Proof. induction files; done. Qed.

Lemma inference_calls_inference imgs bxs h :
  inference_calls (Inference imgs bxs :: h) = S (inference_calls h).
Proof. unfold inference_calls. by rewrite filter_cons_True. Qed.

(** *** Loading a batch *)

Lemma load_batch_returned all_boxes names imgs0 bxs0 h h' imgs bxs :
  load_batch env args all_boxes names imgs0 bxs0 h = (h', Returned (imgs, bxs)) →
  ∃ paths new_imgs new_bxs,
    h' = h ++ (ImageNotFound <$> paths) ∧
    imgs = imgs0 ++ new_imgs ∧ bxs = bxs0 ++ new_bxs ∧
    Forall2 (λ name img,
               image_open env (path_join env (images_dir args) name) = Some img)
            (existing env args names) new_imgs ∧
    Forall2 (λ name boxes, dict_get all_boxes name = Some boxes)
            (existing env args names) new_bxs.
Proof.
  revert imgs0 bxs0 h.
  induction names as [|name names IH]; intros imgs0 bxs0 h; simpl.
  - intros [= <- <- <-]. exists [], [], []. by rewrite !app_nil_r.
  - assert (Hie : image_exists env args name =
                  path_exists env (path_join env (images_dir args) name)) by done.
    destruct (path_exists env _) eqn:Hex; simpl.
    + rewrite bind_eq.
      destruct (image_open env _) as [img|] eqn:Hopen; simpl; [|done].
      rewrite bind_eq.
      destruct (dict_get all_boxes name) as [boxes|] eqn:Hget; simpl; [|done].
      intros (paths & new_imgs & new_bxs & -> & -> & -> & Hi & Hb)%IH.
      exists paths, (img :: new_imgs), (boxes :: new_bxs).
      unfold existing. rewrite filter_cons_True by done.
      rewrite <- !app_assoc. repeat split; try done; by constructor.
    + rewrite bind_eq. unfold emit at 1.
      intros (paths & new_imgs & new_bxs & -> & -> & -> & Hi & Hb)%IH.
      exists (path_join env (images_dir args) name :: paths), new_imgs, new_bxs.
      unfold existing. rewrite filter_cons_False by (rewrite Hie; done).
      rewrite <- app_assoc. done.
Qed.

(** *** Saving *)

Lemma save_all_spec files h :
  ∃ saved,
    saved `prefix_of` files ∧
    ((save_all env files h = (h ++ (saved_event <$> saved), Returned tt) ∧
      saved = files) ∨
     (save_all env files h = (h ++ (saved_event <$> saved), Raised) ∧
      (length saved < length files)%nat ∧
      ∃ path mask, files !! length saved = Some (path, mask) ∧
        can_save env (h ++ (saved_event <$> saved)) path = false)).
Proof.
  unfold save_all. revert h. induction files as [|[path mask] files IH]; intros h.
  - exists []. split; [done|]. left. simpl. by rewrite app_nil_r.
  - assert (Hstep : image_save env path mask h =
                    if can_save env h path
                    then (h ++ [Saved path mask], Returned tt) else (h, Raised)).
    { unfold image_save. by destruct (can_save env h path). }
    cbn [for_each]. rewrite bind_eq, Hstep. clear Hstep.
    destruct (can_save env h path) eqn:Hsave.
    + destruct (IH (h ++ [Saved path mask])) as (saved & Hpre & Hcases).
      exists ((path, mask) :: saved). split; [by apply prefix_cons|].
      change (saved_event <$> (path, mask) :: saved)
        with ((Saved path mask : Ev) :: (saved_event <$> saved)).
      rewrite <- !app_assoc in Hcases. cbn [app] in Hcases.
      destruct Hcases as [[-> ->]|(-> & Hlen & p & m & Hl & Hc)]; [by left|].
      right. split; [done|]. split; [simpl; lia|]. by exists p, m.
    + exists []. split; [apply prefix_nil|]. right. simpl.
      rewrite app_nil_r. split; [done|]. split; [lia|]. by exists path, mask.
Qed.

Lemma for_each_imap {A B} (g : nat → A → B) (body : B → Run Ev unit)
    (l : list A) h (k : nat → nat) :
  for_each (imap (λ i x, g (k i) x) l) body h =
  for_each (imap (λ i x, (k i, x)) l) (λ '(i, x), body (g i x)) h.
Proof.
  revert h k. induction l as [|x l IH]; intros h k; simpl; [done|].
  rewrite !bind_eq. destruct (body (g (k 0%nat) x) h) as [h' [[]|]]; [|done].
  apply (IH h' (λ i, k (S i))).
Qed.

Lemma save_masks_eq masks name h :
  save_masks env masks (output_path_of env args name) name h =
  save_all env (planned_saves env args name masks) h.
Proof.
  unfold save_masks, planned_saves, save_all.
  destruct masks as [|mask [|mask' masks]].
  - done.
  - simpl. rewrite !bind_eq. simpl.
    by destruct (image_save env _ mask h) as [h' [[]|]].
  - change (length (mask :: mask' :: masks) =? 1)%nat with false. cbv iota.
    symmetry.
    exact (for_each_imap
             (λ i m, (path_sibling env (output_path_of env args name)
                        (path_stem env name +:+ "_obj" +:+ pretty i +:+ ".png"), m))
             (λ '(path, mask), image_save env path mask)
             (mask :: mask' :: masks) h (λ i, i)).
Qed.

Lemma save_loop_eq batch_names batch_masks h :
  for_each (zip batch_names batch_masks)
    (λ '(name, masks), save_masks env masks (output_path_of env args name) name) h =
  save_all env (planned_batch_saves env args batch_names batch_masks) h.
Proof.
  unfold planned_batch_saves.
  generalize (zip batch_names batch_masks). intros pairs. revert h.
  induction pairs as [|[name masks] pairs IH]; intros h; simpl; [done|].
  unfold save_all in *. rewrite for_each_app, !bind_eq.
  rewrite save_masks_eq. unfold save_all.
  destruct (for_each (planned_saves env args name masks) _ h) as [h' [[]|]]; [|done].
  apply IH.
Qed.

(** *** One batch *)

Lemma process_batch_eq imgs bxs h :
  process_batch env imgs bxs h =
    (h ++ [Inference imgs bxs],
     match forward env h imgs bxs with
     | Some masks => Returned masks
     | None => Raised
     end).
Proof.
  unfold process_batch. rewrite bind_eq. unfold emit.
  by destruct (forward env h imgs bxs).
Qed.

Lemma process_and_save_cases b imgs bxs h0 :
  ∃ saved out,
    process_and_save env args b imgs bxs h0 =
      (h0 ++ Inference imgs bxs :: (saved_event <$> saved), out) ∧
    match forward env h0 imgs bxs with
    | None => saved = [] ∧ out = Raised
    | Some masks =>
        saved `prefix_of` planned_batch_saves env args b masks ∧
        ((out = Returned tt ∧ saved = planned_batch_saves env args b masks) ∨
         (out = Raised ∧
          (length saved < length (planned_batch_saves env args b masks))%nat))
    end.
Proof.
  unfold process_and_save. rewrite bind_eq, process_batch_eq.
  destruct (forward env h0 imgs bxs) as [masks|].
  - rewrite save_loop_eq.
    destruct (save_all_spec (planned_batch_saves env args b masks)
                (h0 ++ [Inference imgs bxs])) as (saved & Hpre & Hcases).
    rewrite <- !app_assoc in Hcases. cbn [app] in Hcases.
    destruct Hcases as [[-> ->]|(-> & Hlen & _)].
    + exists (planned_batch_saves env args b masks), (Returned tt). auto.
    + exists saved, Raised. auto.
  - exists [], Raised. auto.
Qed.

Lemma batch_round_loaded all_boxes b h h0 imgs bxs :
  load_batch env args all_boxes b [] [] h = (h0, Returned (imgs, bxs)) →
  batch_round env args all_boxes b h =
    if bool_decide (imgs = []) then (h0, Returned tt)
    else try_except (process_and_save env args b imgs bxs)
           (first_name ← lift (b !! 0%nat); emit (BatchError first_name)) h0.
Proof.
  intros Hload. unfold batch_round. rewrite bind_eq, Hload.
  by case_bool_decide.
Qed.

Lemma loaded_nil_iff all_boxes b h h0 imgs bxs :
  load_batch env args all_boxes b [] [] h = (h0, Returned (imgs, bxs)) →
  imgs = [] ↔ existing env args b = [].
Proof.
  intros (paths & new_imgs & new_bxs & _ & -> & _ & Hi & _)%load_batch_returned.
  simpl. apply Forall2_length in Hi.
  split; intros E; rewrite E in Hi; simpl in Hi.
  - by apply nil_length_inv.
  - symmetry in Hi. by apply nil_length_inv.
Qed.

Lemma existing_head b : existing env args b ≠ [] → ∃ first_name, b !! 0%nat = Some first_name.
Proof. destruct b; [done|]. eauto. Qed.

(** A round that returns made one inference call if some image of
    the batch exists and none otherwise. *)
Lemma batch_round_calls all_boxes b h h' :
  batch_round env args all_boxes b h = (h', Returned tt) →
  inference_calls h' =
    (inference_calls h + if bool_decide (existing env args b = []) then 0 else 1)%nat.
Proof.
  destruct (load_batch env args all_boxes b [] [] h) as [h0 [[imgs bxs]|]] eqn:Hload.
  2:{ unfold batch_round. by rewrite bind_eq, Hload. }
  rewrite (batch_round_loaded _ _ _ _ _ _ Hload).
  pose proof (loaded_nil_iff _ _ _ _ _ _ Hload) as Hnil.
  apply load_batch_returned in Hload as (paths & _ & _ & -> & _).
  assert (Hpaths : inference_calls (h ++ (ImageNotFound <$> paths)) = inference_calls h)
    by (rewrite inference_calls_app, inference_calls_not_found; lia).
  case_bool_decide as Himgs.
  - intros [= <-]. rewrite bool_decide_true by by apply Hnil. lia.
  - rewrite bool_decide_false by by rewrite <- Hnil.
    destruct (existing_head b) as [first_name Hfirst]; [by rewrite <- Hnil|].
    destruct (process_and_save_cases b imgs bxs (h ++ (ImageNotFound <$> paths)))
      as (saved & out & Hrun & _).
    unfold try_except. rewrite Hrun.
    assert (Hcalls : inference_calls
              (h ++ (ImageNotFound <$> paths) ++ Inference imgs bxs :: (saved_event <$> saved))
            = S (inference_calls h)).
    { rewrite !inference_calls_app, inference_calls_not_found.
      rewrite inference_calls_inference, inference_calls_saved. lia. }
    rewrite <- app_assoc.
    destruct out as [[]|].
    + intros [= <-]. rewrite Hcalls. lia.
    + rewrite bind_eq, Hfirst. simpl. unfold emit. intros [= <-].
      rewrite inference_calls_app, Hcalls.
      assert (inference_calls ([BatchError first_name] : list Ev) = 0%nat) as -> by done.
      lia.
Qed.

Lemma batch_loop_calls all_boxes bs h h' :
  for_each bs (batch_round env args all_boxes) h = (h', Returned tt) →
  inference_calls h' =
    (inference_calls h + length (filter (λ b, existing env args b ≠ []) bs))%nat.
Proof.
  revert h. induction bs as [|b bs IH]; intros h; simpl.
  - intros [= <-]. lia.
  - rewrite bind_eq.
    destruct (batch_round env args all_boxes b h) as [h1 [[]|]] eqn:Hround; [|done].
    intros ->%IH. rewrite (batch_round_calls _ _ _ _ Hround).
    rewrite filter_cons. case_bool_decide as Hex.
    + rewrite decide_False by (intros ?; done). lia.
    + rewrite decide_True by done. simpl. lia.
Qed.

(** *** The batches *)

Lemma batches_spec (names : list string) :
  0 < batch_size args →
  ∃ starts,
    range0 (Z.of_nat (length names)) (batch_size args) = Some starts ∧
    batches args names = (λ i, slice i (i + batch_size args) names) <$> starts ∧
    Z.of_nat (length (batches args names)) =
      ceil_div (Z.of_nat (length names)) (batch_size args) ∧
    Forall (λ b, (0 < length b ≤ Z.to_nat (batch_size args))%nat) (batches args names).
Proof.
  intros HB.
  destruct (range0_positive_step (Z.of_nat (length names)) (batch_size args))
    as (starts & Hr & Hlen & Hin); [lia|done|].
  exists starts. unfold batches. rewrite Hr. split; [done|]. split; [done|].
  split; [by rewrite length_fmap|].
  apply Forall_fmap, Forall_forall. intros i Hi%Hin. simpl.
  by apply slice_length.
Qed.

Lemma batches_cover_from (names : list string) fuel i :
  0 < batch_size args → 0 ≤ i →
  mjoin ((λ i, slice i (i + batch_size args) names) <$>
         range_from fuel i (Z.of_nat (length names)) (batch_size args))
  `prefix_of` drop (Z.to_nat i) names.
Proof.
  intros HB. revert i. induction fuel as [|fuel IH]; intros i Hi; simpl.
  - apply prefix_nil.
  - destruct (Z.ltb_spec i (Z.of_nat (length names))); [|apply prefix_nil].
    simpl. unfold slice at 1.
    rewrite <- (take_drop (Z.to_nat (i + batch_size args - i)) (drop (Z.to_nat i) names)) at 2.
    apply prefix_app. rewrite drop_drop.
    replace (Z.to_nat i + Z.to_nat (i + batch_size args - i))%nat
      with (Z.to_nat (i + batch_size args)) by lia.
    apply IH. lia.
Qed.

Lemma batches_cover_length (names : list string) fuel i :
  0 < batch_size args → 0 ≤ i → Z.of_nat (length names) - i ≤ Z.of_nat fuel →
  length (mjoin ((λ i, slice i (i + batch_size args) names) <$>
                 range_from fuel i (Z.of_nat (length names)) (batch_size args)))
  = (length names - Z.to_nat i)%nat.
Proof.
  intros HB. revert i. induction fuel as [|fuel IH]; intros i Hi Hfuel; simpl.
  - lia.
  - destruct (Z.ltb_spec i (Z.of_nat (length names))); simpl; [|lia].
    rewrite length_app, IH by lia. unfold slice.
    rewrite length_take, length_drop. lia.
Qed.

(** The batches are consecutive pieces of the name list. *)
Lemma batches_partition (names : list string) :
  0 < batch_size args → mjoin (batches args names) = names.
Proof.
  intros HB. unfold batches, range0.
  destruct (Z.eqb_spec (batch_size args) 0); [lia|].
  destruct (Z.ltb_spec (batch_size args) 0); [lia|].
  pose proof (batches_cover_from names (Z.to_nat (Z.of_nat (length names))) 0 HB)
    as Hpre.
  pose proof (batches_cover_length names (Z.to_nat (Z.of_nat (length names))) 0 HB)
    as Hlen.
  specialize (Hpre ltac:(lia)). specialize (Hlen ltac:(lia) ltac:(lia)).
  change (Z.to_nat 0) with 0%nat in Hpre, Hlen.
  rewrite drop_0 in Hpre. rewrite Nat.sub_0_r in Hlen.
  apply prefix_length_eq in Hpre; [done|]. by rewrite Hlen.
Qed.

Lemma main_eq h all_boxes :
  makedirs env (output_dir args) = true →
  from_pretrained env (model args) = true →
  json_load env (boxes_file args) = Some all_boxes →
  0 < batch_size args →
  main env args h =
    for_each (batches args all_boxes.*1) (batch_round env args all_boxes) h.
Proof.
  intros Hd Hm Hb HB. unfold main, load_boxes. rewrite bind_eq, Hd. simpl.
  rewrite bind_eq, Hm. simpl.
  rewrite bind_eq, Hb. simpl. rewrite bind_eq.
  destruct (batches_spec all_boxes.*1 HB) as (starts & Hr & -> & _).
  rewrite Hr. simpl. by rewrite for_each_fmap.
Qed.

(** *** Names that exist, by position *)




(** *** C2 *)

(** C2 (as amended).  For a positive batch size, a run of [main] that
    ends normally cuts the [N] listed names into [ceil(N/B)]
    consecutive batches of between 1 and [B] names, and makes one
    inference call for each batch that has at least one existing
    image file and none for the others.  So the calls number at most
    [ceil(N/B)], and exactly [ceil(N/B)] when every batch has an
    existing image file. *)
Theorem inference_call_per_loaded_batch h :
  0 < batch_size args →
  main env args [] = (h, Returned tt) →
  ∃ all_boxes,
    json_load env (boxes_file args) = Some all_boxes ∧
    let bs := batches args all_boxes.*1 in
    let n_batches := ceil_div (Z.of_nat (length all_boxes)) (batch_size args) in
    mjoin bs = all_boxes.*1 ∧
    Forall (λ b, (0 < length b ≤ Z.to_nat (batch_size args))%nat) bs ∧
    Z.of_nat (length bs) = n_batches ∧
    inference_calls h = length (filter (λ b, existing env args b ≠ []) bs) ∧
    Z.of_nat (inference_calls h) ≤ n_batches ∧
    (Forall (λ b, existing env args b ≠ []) bs →
     Z.of_nat (inference_calls h) = n_batches).
Proof.
  intros HB Hmain.
  destruct (makedirs env (output_dir args)) eqn:Hd.
  2:{ unfold main in Hmain. by rewrite bind_eq, Hd in Hmain. }
  destruct (from_pretrained env (model args)) eqn:Hm.
  2:{ unfold main in Hmain. rewrite bind_eq, Hd in Hmain. simpl in Hmain.
      by rewrite bind_eq, Hm in Hmain. }
  destruct (json_load env (boxes_file args)) as [all_boxes|] eqn:Hb.
  2:{ unfold main, load_boxes in Hmain. rewrite bind_eq, Hd in Hmain. simpl in Hmain.
      rewrite bind_eq, Hm in Hmain. simpl in Hmain.
      by rewrite bind_eq, Hb in Hmain. }
  exists all_boxes. split; [done|].
  rewrite (main_eq [] all_boxes Hd Hm Hb HB) in Hmain.
  apply batch_loop_calls in Hmain. simpl in Hmain.
  destruct (batches_spec all_boxes.*1 HB) as (starts & _ & _ & Hlen & Hsize).
  rewrite length_fmap in Hlen.
  split; [by apply batches_partition|]. split; [done|]. split; [done|].
  split; [done|]. rewrite Hmain. split.
  - rewrite <- Hlen. apply inj_le, length_filter.
  - intros Hall. rewrite <- Hlen. f_equal. f_equal.
    clear -Hall. induction Hall as [|b bs Hb _ IH]; [done|].
    by rewrite filter_cons_True, IH.
Qed.

(** *** C6 *)

(** C6.  Take a batch whose images loaded and whose [try] body
    (inference, then saving) raises.  The round catches the
    exception, logs the batch by its first name and returns, so the
    loop goes on with the next batch.  Up to the exception the body
    made one inference call and completed a strict prefix of the
    file writes the batch called for (none if the inference itself
    raised); nothing of the batch is written or retried after it. *)
Theorem batch_exception_skips_batch all_boxes b rest h h0 imgs bxs h1 :
  load_batch env args all_boxes b [] [] h = (h0, Returned (imgs, bxs)) →
  imgs ≠ [] →
  process_and_save env args b imgs bxs h0 = (h1, Raised) →
  ∃ first_name saved,
    b !! 0%nat = Some first_name ∧
    h1 = h0 ++ Inference imgs bxs :: (saved_event <$> saved) ∧
    match forward env h0 imgs bxs with
    | None => saved = []
    | Some masks =>
        saved `prefix_of` planned_batch_saves env args b masks ∧
        (length saved < length (planned_batch_saves env args b masks))%nat
    end ∧
    batch_round env args all_boxes b h = (h1 ++ [BatchError first_name], Returned tt) ∧
    for_each (b :: rest) (batch_round env args all_boxes) h =
      for_each rest (batch_round env args all_boxes) (h1 ++ [BatchError first_name]).
Proof.
  intros Hload Himgs Hraise.
  destruct (existing_head b) as [first_name Hfirst].
  { by rewrite <- (loaded_nil_iff _ _ _ _ _ _ Hload). }
  destruct (process_and_save_cases b imgs bxs h0) as (saved & out & Hrun & Hcases).
  rewrite Hraise in Hrun. injection Hrun as -> <-.
  assert (Hround : batch_round env args all_boxes b h =
            (h0 ++ Inference imgs bxs :: (saved_event <$> saved) ++ [BatchError first_name],
             Returned tt)).
  { rewrite (batch_round_loaded _ _ _ _ _ _ Hload), bool_decide_false by done.
    unfold try_except. rewrite Hraise, bind_eq, Hfirst. simpl. unfold emit.
    by rewrite <- app_assoc. }
  exists first_name, saved. split; [done|]. split; [done|]. split.
  - destruct (forward env h0 imgs bxs) as [masks|].
    + destruct Hcases as [Hpre [[? _]|[_ Hlen]]]; done.
    + by destruct Hcases.
  - rewrite <- app_assoc. split; [done|].
    by apply for_each_cons_returned.
Qed.

(** *** C9 *)


End Script.

(** *** Concrete runs *)

(** C2, as stated, fails: three listed names, batch size 2, and only the
    third image file present.  The first batch loads nothing and is
    skipped, so one inference call is made where [ceil(3/2)] is 2. *)
Lemma one_call_per_batch_counterexample :
  json_load sparse_env (boxes_file sample_args) = Some sample_boxes ∧
  length sample_boxes = 3%nat ∧
  batch_size sample_args = 2 ∧
  main sparse_env sample_args [] =
    ([ImageNotFound "images/a.jpg"; ImageNotFound "images/b.jpg";
      Inference ["image of images/c.jpg"] [[[2; 2; 8; 8]]];
      Saved "masks/c.png" "mask of image of images/c.jpg"],
     Returned tt) ∧
  inference_calls (main sparse_env sample_args []).1 = 1%nat ∧
  ceil_div 3 2 = 2 ∧
  Z.of_nat (inference_calls (main sparse_env sample_args []).1) ≠
    ceil_div (Z.of_nat (length sample_boxes)) (batch_size sample_args).
Proof. repeat split. discriminate. Qed.

Lemma inference_call_per_loaded_batch_witness :
  ∃ all_boxes,
    json_load sparse_env (boxes_file sample_args) = Some all_boxes ∧
    let bs := batches sample_args all_boxes.*1 in
    let n_batches := ceil_div (Z.of_nat (length all_boxes)) (batch_size sample_args) in
    mjoin bs = all_boxes.*1 ∧
    Forall (λ b, (0 < length b ≤ Z.to_nat (batch_size sample_args))%nat) bs ∧
    Z.of_nat (length bs) = n_batches ∧
    inference_calls (main sparse_env sample_args []).1
      = length (filter (λ b, existing sparse_env sample_args b ≠ []) bs) ∧
    Z.of_nat (inference_calls (main sparse_env sample_args []).1) ≤ n_batches ∧
    (Forall (λ b, existing sparse_env sample_args b ≠ []) bs →
     Z.of_nat (inference_calls (main sparse_env sample_args []).1) = n_batches).
Proof.
  apply (inference_call_per_loaded_batch sparse_env sample_args);
    [reflexivity | reflexivity].
Defined.

Lemma batch_exception_skips_batch_witness :
  ∃ first_name saved,
    ["a.jpg"; "b.jpg"] !! 0%nat = Some first_name ∧
    [Inference ["image of images/a.jpg"; "image of images/b.jpg"]
       [[[0; 0; 10; 10]]; [[1; 1; 5; 5]]];
     Saved "masks/a.png" "mask of image of images/a.jpg"] =
      [] ++ Inference ["image of images/a.jpg"; "image of images/b.jpg"]
              [[[0; 0; 10; 10]]; [[1; 1; 5; 5]]] :: (saved_event <$> saved) ∧
    match forward unwritable_env []
            ["image of images/a.jpg"; "image of images/b.jpg"]
            [[[0; 0; 10; 10]]; [[1; 1; 5; 5]]] with
    | None => saved = []
    | Some masks =>
        saved `prefix_of`
          planned_batch_saves unwritable_env sample_args ["a.jpg"; "b.jpg"] masks ∧
        (length saved <
         length (planned_batch_saves unwritable_env sample_args
                   ["a.jpg"; "b.jpg"] masks))%nat
    end ∧
    batch_round unwritable_env sample_args sample_boxes ["a.jpg"; "b.jpg"] [] =
      ([Inference ["image of images/a.jpg"; "image of images/b.jpg"]
          [[[0; 0; 10; 10]]; [[1; 1; 5; 5]]];
        Saved "masks/a.png" "mask of image of images/a.jpg"]
       ++ [BatchError first_name], Returned tt) ∧
    for_each [["a.jpg"; "b.jpg"]; ["c.jpg"]]
      (batch_round unwritable_env sample_args sample_boxes) [] =
    for_each [["c.jpg"]] (batch_round unwritable_env sample_args sample_boxes)
      ([Inference ["image of images/a.jpg"; "image of images/b.jpg"]
          [[[0; 0; 10; 10]]; [[1; 1; 5; 5]]];
        Saved "masks/a.png" "mask of image of images/a.jpg"]
       ++ [BatchError first_name]).
Proof.
  apply (batch_exception_skips_batch unwritable_env sample_args sample_boxes
           ["a.jpg"; "b.jpg"] [["c.jpg"]] [] []
           ["image of images/a.jpg"; "image of images/b.jpg"]
           [[[0; 0; 10; 10]]; [[1; 1; 5; 5]]]);
    [reflexivity | discriminate | reflexivity].
Defined.


End BatchSegFacts.

Module InteractiveFacts.
Import Effects Interactive InteractiveSpec EffectsFacts.

(** *** Splitting at commas *)


Lemma split_no_sep sep s :
  all_chars (λ c, negb (Ascii.eqb c sep)) s = true → split sep s = [s].
Proof.
  induction s as [|c s IH]; simpl; [done|].
  intros [Hc Hs]%andb_true_iff. apply negb_true_iff in Hc.
  by rewrite Hc, (IH Hs).
Qed.

Lemma split_app_sep sep s rest :
  all_chars (λ c, negb (Ascii.eqb c sep)) s = true →
  split sep (s +:+ String sep rest) = s :: split sep rest.
Proof.
  induction s as [|c s IH]; simpl.
  - intros _. by rewrite Ascii.eqb_refl.
  - intros [Hc Hs]%andb_true_iff. apply negb_true_iff in Hc.
    by rewrite Hc, (IH Hs).
Qed.

Lemma split_concat sep toks :
  toks ≠ [] →
  Forall (λ tok, all_chars (λ c, negb (Ascii.eqb c sep)) tok = true) toks →
  split sep (String.concat (String sep EmptyString) toks) = toks.
Proof.
  intros Hne Htoks. induction Htoks as [|tok toks Htok Htoks IH]; [done|].
  destruct toks as [|tok' toks].
  - simpl. by apply split_no_sep.
  - change (String.concat (String sep EmptyString) (tok :: tok' :: toks))
      with (tok +:+ String sep (String.concat (String sep EmptyString) (tok' :: toks))).
    rewrite split_app_sep by done. by rewrite IH.
Qed.

(** *** Reading one literal *)










(** *** C8 *)



Section Script.
Context {Image Tensor : Type}.
Variable env : @Env Image Tensor.
Implicit Types (s : @Segmenter Image Tensor) (h : list (@Event Image Tensor)).

(** *** One click *)

Lemma add_point_eq s (x y : Z) (is_positive : bool) h :
  let pos := if is_positive then positive_points s ++ [(x, y)] else positive_points s in
  let neg := if is_positive then negative_points s else negative_points s ++ [(x, y)] in
  let labels := replicate (length pos) 1 ++ replicate (length neg) 0 in
  add_point env s x y is_positive h =
    (h ++ [PointInference (pos ++ neg) labels
             (original_sizes s) (current_mask s) (image_embeddings s)],
     match forward_points env (pos ++ neg) labels
             (original_sizes s) (current_mask s) (image_embeddings s) with
     | None => Raised
     | Some pred =>
         match post_process env pred (original_sizes s) with
         | None => Raised
         | Some display =>
             Returned
               {| image := image s; initial_box := initial_box s;
                  positive_points := pos; negative_points := neg;
                  current_mask := Some pred;
                  image_embeddings := image_embeddings s;
                  original_sizes := original_sizes s;
                  display_mask := Some display |}
         end
     end).
Proof.
  intros pos neg labels. unfold add_point. simpl. fold pos neg. fold labels.
  rewrite bool_decide_false.
  2:{ unfold pos, neg. destruct is_positive, (positive_points s), (negative_points s); done. }
  rewrite bind_eq. unfold emit at 1. rewrite bind_eq.
  destruct (forward_points env _ _ _ _ _) as [pred|]; simpl; [|done].
  rewrite bind_eq.
  by destruct (post_process env pred (original_sizes s)) as [display|].
Qed.

(** *** Initialisation *)

Lemma initialize_eq s h :
  _initialize_segmentation env s h =
    (h ++ [BoxInference (image s) [[initial_box s]]],
     match forward_box env (image s) [[initial_box s]] with
     | None => Raised
     | Some outputs =>
         match argmax (iou_scores outputs) ≫= (pred_masks outputs !!.) with
         | None => Raised
         | Some mask =>
             match post_process env mask (Some (out_original_sizes outputs)) with
             | None => Raised
             | Some display =>
                 Returned
                   {| image := image s; initial_box := initial_box s;
                      positive_points := positive_points s;
                      negative_points := negative_points s;
                      current_mask := Some mask;
                      image_embeddings := Some (out_image_embeddings outputs);
                      original_sizes := Some (out_original_sizes outputs);
                      display_mask := Some display |}
             end
         end
     end).
Proof.
  unfold _initialize_segmentation. rewrite bind_eq. unfold emit at 1.
  rewrite bind_eq.
  destruct (forward_box env _ _) as [outputs|]; simpl; [|done].
  rewrite bind_eq.
  destruct (argmax (iou_scores outputs)) as [idx|]; simpl; [|done].
  rewrite bind_eq.
  destruct (pred_masks outputs !! idx) as [mask|]; simpl; [|done].
  rewrite bind_eq.
  by destruct (post_process env mask _) as [display|].
Qed.

(** *** C4 *)

(** C4.  A call of [add_point] makes exactly one inference call.  It
    carries all stored positive points followed by all stored
    negative points, the new point included, with a label 1 for each
    positive and 0 for each negative point, and it passes the mask
    stored before the click as [input_masks].  When the model and the
    post-processing return, the call's output becomes the stored
    mask and its post-processed form the display mask. *)
Theorem click_resends_history s (x y : Z) (is_positive : bool) h :
  let pos := if is_positive then positive_points s ++ [(x, y)] else positive_points s in
  let neg := if is_positive then negative_points s else negative_points s ++ [(x, y)] in
  let labels := replicate (length pos) 1 ++ replicate (length neg) 0 in
  (add_point env s x y is_positive h).1 =
    h ++ [PointInference (pos ++ neg) labels
            (original_sizes s) (current_mask s) (image_embeddings s)] ∧
  (x, y) ∈ pos ++ neg ∧
  match forward_points env (pos ++ neg) labels
          (original_sizes s) (current_mask s) (image_embeddings s) with
  | None => (add_point env s x y is_positive h).2 = Raised
  | Some pred =>
      match post_process env pred (original_sizes s) with
      | None => (add_point env s x y is_positive h).2 = Raised
      | Some display =>
          ∃ s', (add_point env s x y is_positive h).2 = Returned s' ∧
            current_mask s' = Some pred ∧
            display_mask s' = Some display ∧
            positive_points s' = pos ∧
            negative_points s' = neg
      end
  end.
Proof.
  intros pos neg labels. rewrite add_point_eq. fold pos neg. fold labels.
  split; [done|]. split.
  - unfold pos, neg. destruct is_positive; set_solver.
  - destruct (forward_points env _ _ _ _ _) as [pred|]; [|done].
    destruct (post_process env pred _) as [display|]; [|done].
    eexists. split; [done|]. done.
Qed.

(** *** Reachable states *)

Lemma add_point_preserves s (x y : Z) (is_positive : bool) h h' s' :
  add_point env s x y is_positive h = (h', Returned s') →
  image s' = image s ∧ initial_box s' = initial_box s.
Proof.
  rewrite add_point_eq.
  destruct (forward_points env _ _ _ _ _) as [pred|]; [|done].
  destruct (post_process env pred _) as [display|]; [|done].
  by intros [= <- <-].
Qed.

Lemma reset_preserves s h h' s' :
  reset env s h = (h', Returned s') →
  image s' = image s ∧ initial_box s' = initial_box s.
Proof.
  unfold reset. rewrite initialize_eq. simpl.
  destruct (forward_box env _ _) as [outputs|]; [|done].
  destruct (argmax _ ≫= _) as [mask|]; [|done].
  destruct (post_process env mask _) as [display|]; [|done].
  by intros [= <- <-].
Qed.

Lemma mouse_callback_preserves s event (x y : Z) h h' s' :
  mouse_callback env s event x y h = (h', Returned s') →
  image s' = image s ∧ initial_box s' = initial_box s.
Proof.
  destruct event; simpl.
  - apply add_point_preserves.
  - apply add_point_preserves.
  - by intros [= <- <-].
Qed.

Lemma main_loop_preserves output s inputs h h' s' :
  main_loop env output s inputs h = (h', Returned s') →
  image s' = image s ∧ initial_box s' = initial_box s.
Proof.
  revert s h. induction inputs as [|[event x y|key] inputs IH]; intros s h;
    cbn [main_loop].
  - by intros [= <- <-].
  - rewrite bind_eq.
    destruct (mouse_callback env s event x y h) as [h1 [s1|]] eqn:Hstep; [|done].
    intros [-> ->]%IH. by apply mouse_callback_preserves in Hstep.
  - destruct (Ascii.eqb key "q"); [by intros [= <- <-]|].
    destruct (Ascii.eqb key "r").
    { rewrite bind_eq.
      destruct (reset env s h) as [h1 [s1|]] eqn:Hstep; [|done].
      intros [-> ->]%IH. by apply reset_preserves in Hstep. }
    destruct (Ascii.eqb key "s"); [|apply IH].
    rewrite bind_eq. destruct (save_mask env s output h) as [h1 [[]|]]; [|done].
    apply IH.
Qed.

(** *** C5 *)

(** C5.  From any state the segmenter reaches after construction
    through the main loop (clicks, resets, saves), [reset] makes the box
    inference call again and returns the state construction returned:
    both point lists empty, and the masks, embeddings and sizes derived
    from the initial box. *)
Theorem reset_restores_initial_state img box output inputs h0 h1 h2 s0 s h :
  init env img box h0 = (h1, Returned s0) →
  main_loop env output s0 inputs h1 = (h2, Returned s) →
  reset env s h = (h ++ [BoxInference img [[box]]], Returned s0) ∧
  positive_points s0 = [] ∧ negative_points s0 = [].
Proof.
  intros Hinit [Himg Hbox]%main_loop_preserves.
  unfold init in Hinit. rewrite initialize_eq in Hinit. simpl in Hinit.
  unfold reset. rewrite initialize_eq. simpl.
  destruct (forward_box env img [[box]]) as [outputs|] eqn:Hfwd; [|done].
  destruct (argmax _ ≫= _) as [mask|] eqn:Hmask; [|done].
  destruct (post_process env mask _) as [display|] eqn:Hpost; [|done].
  injection Hinit as <- <-. simpl in *.
  rewrite Himg, Hbox, Hfwd, Hmask, Hpost. done.
Qed.

(** *** The stored points after a run of clicks *)

Lemma positives_cons (x y : Z) (b : bool) (clicks : list Click) :
  positives ((x, y, b) :: clicks) =
    if b then (x, y) :: positives clicks else positives clicks.
Proof.
  unfold positives. destruct b.
  - by rewrite filter_cons_True.
  - by rewrite filter_cons_False.
Qed.

Lemma negatives_cons (x y : Z) (b : bool) (clicks : list Click) :
  negatives ((x, y, b) :: clicks) =
    if b then negatives clicks else (x, y) :: negatives clicks.
Proof.
  unfold negatives. destruct b.
  - by rewrite filter_cons_False.
  - by rewrite filter_cons_True.
Qed.

Lemma positives_app (l1 l2 : list Click) :
  positives (l1 ++ l2) = positives l1 ++ positives l2.
Proof. unfold positives. by rewrite filter_app, fmap_app. Qed.

Lemma negatives_app (l1 l2 : list Click) :
  negatives (l1 ++ l2) = negatives l1 ++ negatives l2.
Proof. unfold negatives. by rewrite filter_app, fmap_app. Qed.

Lemma main_loop_clicks_points output s0 (clicks : list Click) h h' s :
  main_loop env output s0 (click_input <$> clicks) h = (h', Returned s) →
  positive_points s = positive_points s0 ++ positives clicks ∧
  negative_points s = negative_points s0 ++ negatives clicks.
Proof.
  revert s0 h. induction clicks as [|[[x y] b] clicks IH]; intros s0 h; simpl.
  - intros [= <- <-]. unfold positives, negatives. simpl. by rewrite !app_nil_r.
  - rewrite bind_eq.
    assert (Hr : mouse_callback env s0
                   (if b then EVENT_LBUTTONDOWN else EVENT_RBUTTONDOWN) x y h =
                 add_point env s0 x y b h)
      by by destruct b.
    rewrite Hr, add_point_eq.
    destruct (forward_points env _ _ _ _ _) as [pred|]; [|done].
    destruct (post_process env pred _) as [display|]; [|done].
    intros [-> ->]%IH. rewrite positives_cons, negatives_cons.
    destruct b; simpl; by rewrite <- app_assoc.
Qed.

(** *** C10 *)

(** C10.  After any run of clicks on a segmenter that started with
    empty point lists, the next click resends the positive points in
    click order followed by the negative points in click order, with
    as many labels 1 as positive points followed by as many labels 0
    as negative points.  This is not the order of the clicks: a
    negative click at [p] followed by a positive click at another
    point [q] is resent as [q], [p]. *)
Theorem resent_points_grouped_by_sign :
  (∀ output s0 (clicks : list Click) (x y : Z) (is_positive : bool) h h1 s1,
     positive_points s0 = [] → negative_points s0 = [] →
     main_loop env output s0 (click_input <$> clicks) h = (h1, Returned s1) →
     let all := clicks ++ [(x, y, is_positive)] in
     (add_point env s1 x y is_positive h1).1 =
       h1 ++ [PointInference (positives all ++ negatives all)
                (replicate (length (positives all)) 1 ++
                 replicate (length (negatives all)) 0)
                (original_sizes s1) (current_mask s1) (image_embeddings s1)]) ∧
  (∀ p q : Z * Z,
     p ≠ q →
     positives [(p, false); (q, true)] ++ negatives [(p, false); (q, true)] = [q; p] ∧
     chronological [(p, false); (q, true)] = [p; q] ∧
     [q; p] ≠ [p; q]).
Proof.
  split.
  - intros output s0 clicks x y is_positive h h1 s1 Hpos Hneg Hloop all.
    apply main_loop_clicks_points in Hloop as [Hp Hn].
    rewrite Hpos in Hp. rewrite Hneg in Hn. simpl in Hp, Hn.
    rewrite add_point_eq. simpl. rewrite Hp, Hn.
    unfold all. rewrite positives_app, negatives_app, positives_cons, negatives_cons.
    destruct is_positive; simpl; by rewrite !app_nil_r.
  - intros p q Hpq. repeat split. congruence.
Qed.

End Script.

(** *** Concrete sessions *)

Lemma reset_restores_initial_state_witness :
  init sample_env "photo" [100; 100; 500; 500] [] =
    ([BoxInference "photo" [[[100; 100; 500; 500]]]], Returned sample_initial) ∧
  reset sample_env
    {| image := "photo"; initial_box := [100; 100; 500; 500];
       positive_points := [(5, 6)]; negative_points := [];
       current_mask := Some "refined best";
       image_embeddings := Some "embeddings of photo";
       original_sizes := Some "sizes of photo";
       display_mask := Some "display of refined best" |} [] =
    ([] ++ [BoxInference "photo" [[[100; 100; 500; 500]]]], Returned sample_initial) ∧
  positive_points sample_initial = [] ∧ negative_points sample_initial = [].
Proof.
  split; [reflexivity|].
  apply (reset_restores_initial_state sample_env "photo" [100; 100; 500; 500]
           "mask.png"
           [Mouse EVENT_LBUTTONDOWN 1 2; Mouse EVENT_RBUTTONDOWN 3 4; Key "r";
            Mouse EVENT_LBUTTONDOWN 5 6]
           [] [BoxInference "photo" [[[100; 100; 500; 500]]]]
           [BoxInference "photo" [[[100; 100; 500; 500]]];
            PointInference [(1, 2)] [1] (Some "sizes of photo") (Some "best")
              (Some "embeddings of photo");
            PointInference [(1, 2); (3, 4)] [1; 0] (Some "sizes of photo")
              (Some "refined best") (Some "embeddings of photo");
            BoxInference "photo" [[[100; 100; 500; 500]]];
            PointInference [(5, 6)] [1] (Some "sizes of photo") (Some "best")
              (Some "embeddings of photo")]);
    reflexivity.
Defined.

Lemma resent_points_grouped_by_sign_witness :
  (add_point sample_env
     {| image := "photo"; initial_box := [100; 100; 500; 500];
        positive_points := [(7, 7)]; negative_points := [(1, 2)];
        current_mask := Some "refined refined best";
        image_embeddings := Some "embeddings of photo";
        original_sizes := Some "sizes of photo";
        display_mask := Some "display of refined refined best" |}
     3 4 true
     [PointInference [(1, 2)] [0] (Some "sizes of photo") (Some "best")
        (Some "embeddings of photo");
      PointInference [(7, 7); (1, 2)] [1; 0] (Some "sizes of photo")
        (Some "refined best") (Some "embeddings of photo")]).1 =
    [PointInference [(1, 2)] [0] (Some "sizes of photo") (Some "best")
       (Some "embeddings of photo");
     PointInference [(7, 7); (1, 2)] [1; 0] (Some "sizes of photo")
       (Some "refined best") (Some "embeddings of photo")] ++
    [PointInference [(7, 7); (3, 4); (1, 2)] [1; 1; 0] (Some "sizes of photo")
       (Some "refined refined best") (Some "embeddings of photo")].
Proof.
  apply (proj1 (resent_points_grouped_by_sign sample_env)
           "mask.png" sample_initial [(1, 2, false); (7, 7, true)] 3 4 true []);
    reflexivity.
Defined.

End InteractiveFacts.

(** ** More on the validator *)

Module ValidatorMore.
Import PyNum Validator ValidatorSummary ValidatorSpec ValidatorMoreSpec ValidatorFacts.

(** *** The warnings of each check *)

Lemma warnings_check_file_size env r :
  warnings (_check_file_size env r) = warnings r ++ size_warnings env.
Proof.
  unfold _check_file_size, size_warnings. cbv zeta. fold (exact_size_mb env).
  repeat case_match; cbn [warnings append_warning set_info]; by rewrite ?app_nil_r.
Qed.

Lemma warnings_record_inputs details i r :
  warnings (for_enumerate record_input i details r) = warnings r ++ dynamic_warnings i details.
Proof.
  revert i r. induction details as [|d details IH]; intros i r; cbn [for_enumerate dynamic_warnings].
  - by rewrite app_nil_r.
  - rewrite IH. unfold record_input. cbv zeta.
    case_bool_decide; cbn [warnings append_warning set_info]; by rewrite <- ?app_assoc.
Qed.

Lemma warnings_record_outputs details i r :
  warnings (for_enumerate record_output i details r) = warnings r.
Proof.
  revert i r. induction details as [|d details IH]; intros i r; cbn [for_enumerate]; [done|].
  by rewrite IH.
Qed.

Lemma warnings_check_quantization it r :
  warnings (_check_quantization it r) = warnings r ++ quantization_warnings it.
Proof.
  unfold _check_quantization, quantization_warnings. cbv zeta.
  fold (recorded_quantized it).
  case_match; cbn [warnings append_warning set_info]; by rewrite ?app_nil_r.
Qed.

Lemma warnings_check_operations env r :
  warnings (_check_operations env r) = warnings r ++ operations_warnings env.
Proof.
  unfold _check_operations, operations_warnings.
  repeat case_match; cbn [warnings append_warning]; by rewrite ?app_nil_r.
Qed.

Lemma warnings_check_memory_usage it r :
  warnings (_check_memory_usage it r) = warnings r ++ memory_warnings it.
Proof.
  unfold _check_memory_usage, memory_warnings. cbv zeta. fold (exact_memory_mb it).
  case_match; cbn [warnings append_warning set_info]; by rewrite ?app_nil_r.
Qed.

Lemma warnings_before_scoring env it :
  warnings (before_scoring env it) =
    size_warnings env ++ dynamic_warnings 0 (get_input_details it) ++
    quantization_warnings it ++ operations_warnings env ++ memory_warnings it.
Proof.
  unfold before_scoring.
  rewrite warnings_check_memory_usage, warnings_check_operations,
    warnings_check_quantization.
  unfold _check_input_output.
  rewrite warnings_record_outputs, warnings_record_inputs, warnings_check_file_size.
  cbn [warnings init_results app]. by rewrite <- !app_assoc.
Qed.

Lemma validate_passing_eq env it :
  path_exists env = true → load_interpreter env = Some it →
  validate env =
    Some (set_info "compatibility_score"
            (VInt (Z.max 0 (additive_score (recorded_quantized it) (recorded_size_mb env)
                              (recorded_memory_mb it)
                              (length (warnings (before_scoring env it))))))
            (before_scoring env it)).
Proof.
  intros He Hl. rewrite (validate_passing env it He Hl).
  destruct (before_scoring_spec env it) as (_ & _ & Hq & Hs & Hm).
  by apply check_mobile_compatibility_eq.
Qed.

Lemma validate_scored env it :
  path_exists env = true → load_interpreter env = Some it →
  ∃ r,
    validate env = Some r ∧
    warnings r = warnings (before_scoring env it) ∧
    stored_score r =
      Some (Z.max 0 (additive_score (recorded_quantized it) (recorded_size_mb env)
                       (recorded_memory_mb it)
                       (length (warnings (before_scoring env it))))).
Proof.
  intros He Hl. rewrite (validate_passing_eq env it He Hl).
  eexists. split; [reflexivity|]. split; [reflexivity|].
  apply stored_score_set_info.
Qed.

Lemma validate_cases env :
  (path_exists env = false ∧
   validate env = Some (append_error ModelFileNotFound (set_valid false init_results))) ∨
  (path_exists env = true ∧ load_interpreter env = None ∧
   validate env =
     Some (append_error FailedToLoadModel
             (set_valid false (_check_file_size env init_results)))) ∨
  (∃ it, path_exists env = true ∧ load_interpreter env = Some it ∧
     validate env =
       Some (set_info "compatibility_score"
               (VInt (Z.max 0 (additive_score (recorded_quantized it)
                                 (recorded_size_mb env) (recorded_memory_mb it)
                                 (length (warnings (before_scoring env it))))))
               (before_scoring env it))).
Proof.
  destruct (path_exists env) eqn:He.
  - destruct (load_interpreter env) as [it|] eqn:Hl.
    + right. right. exists it. by rewrite (validate_passing_eq env it He Hl).
    + right. left. unfold validate. by rewrite He, Hl.
  - left. unfold validate. by rewrite He.
Qed.

Lemma info_check_file_size env k :
  info (_check_file_size env init_results) !! k =
    if decide (k = "size_mb") then Some (VFloat (recorded_size_mb env)) else None.
Proof.
  unfold _check_file_size. cbv zeta. fold (recorded_size_mb env).
  assert (E : (<["size_mb" := VFloat (recorded_size_mb env)]> (∅ : gmap string Value)) !! k =
              if decide (k = "size_mb") then Some (VFloat (recorded_size_mb env)) else None).
  { case_decide as Hk.
    - subst. apply lookup_insert_eq.
    - rewrite lookup_insert_ne by done. apply lookup_empty. }
  repeat case_match; cbn [info append_warning set_info init_results]; exact E.
Qed.

(** *** A score is stored exactly when the validation passes *)

(** A validation stores a compatibility score exactly when it passes.
    When the file is missing nothing is recorded at all; when the file
    exists its size is recorded even if the interpreter cannot load
    it. *)
Theorem score_stored_iff_passed env :
  ∃ r,
    validate env = Some r ∧
    (is_Some (stored_score r) ↔ valid r = true) ∧
    (valid r = true ↔ passes env = true) ∧
    (path_exists env = false → info r = ∅ ∧ warnings r = []) ∧
    (path_exists env = true →
     info r !! "size_mb" = Some (VFloat (recorded_size_mb env)) ∧
     size_warnings env `prefix_of` warnings r).
Proof.
  destruct (validate_cases env) as [[He ->]|[(He & Hl & ->)|(it & He & Hl & ->)]];
    eexists; (split; [reflexivity|]); unfold passes; rewrite He, ?Hl.
  - cbn. repeat split; try done. by intros [? ?].
  - unfold stored_score. cbn [info valid append_error set_valid set_info].
    rewrite !info_check_file_size. cbn. rewrite warnings_check_file_size.
    repeat split; try done; try by intros [? ?].
  - destruct (before_scoring_spec env it) as (Hv & _ & _ & Hs & _).
    rewrite stored_score_set_info. cbn [info valid warnings set_info].
    rewrite lookup_insert_ne by done. rewrite warnings_before_scoring.
    rewrite bool_decide_true by eauto.
    repeat split; try done; eauto. by apply prefix_app_r.
Qed.

(** *** A model that is not quantized *)

(** A model none of whose input or output tensors is 8-bit loses the 20
    points of the quantization penalty and 5 more for the warning the
    quantization check adds: its score is at most 75. *)
Theorem float_model_scores_at_most_75 env it :
  path_exists env = true → load_interpreter env = Some it →
  recorded_quantized it = false →
  ∃ r z, validate env = Some r ∧ stored_score r = Some z ∧
    NotQuantized ∈ warnings r ∧ z ≤ 75.
Proof.
  intros He Hl Hq.
  destruct (validate_scored env it He Hl) as (r & Hv & Hw & Hs).
  exists r. eexists. split; [exact Hv|]. split; [exact Hs|].
  assert (Hin : NotQuantized ∈ warnings (before_scoring env it)).
  { rewrite warnings_before_scoring. unfold quantization_warnings. rewrite Hq.
    set_solver. }
  rewrite Hw. split; [done|].
  assert (Hlen : (1 ≤ length (warnings (before_scoring env it)))%nat).
  { destruct (warnings (before_scoring env it)); [by apply elem_of_nil in Hin|simpl; lia]. }
  rewrite Hq, additive_score_eq.
  clear -Hlen. generalize dependent (length (warnings (before_scoring env it))).
  generalize (recorded_size_mb env), (recorded_memory_mb it). intros s m n Hn.
  repeat case_match; lia.
Qed.

Lemma float_model_scores_at_most_75_witness :
  ∃ r z, validate sample_float_env = Some r ∧ stored_score r = Some z ∧
    NotQuantized ∈ warnings r ∧ z ≤ 75.
Proof.
  apply (float_model_scores_at_most_75 sample_float_env sample_float_model);
    reflexivity.
Defined.

(** *** The perfect score *)

(** The stored score is 100 exactly when the model is recorded as
    quantized, its recorded size is at most 20 MB, its recorded memory at
    most 50 MB, and no check added a warning. *)
Theorem perfect_score_iff env it :
  path_exists env = true → load_interpreter env = Some it →
  ∃ r z, validate env = Some r ∧ stored_score r = Some z ∧
    (z = 100 ↔
       recorded_quantized it = true ∧
       Qgtb (recorded_size_mb env) 20 = false ∧
       Qgtb (recorded_memory_mb it) 50 = false ∧
       warnings r = []).
Proof.
  intros He Hl.
  destruct (validate_scored env it He Hl) as (r & Hv & Hw & Hsc).
  exists r. eexists. split; [exact Hv|]. split; [exact Hsc|].
  rewrite Hw, additive_score_eq.
  assert (H50 : Qgtb (recorded_size_mb env) 50 = true → Qgtb (recorded_size_mb env) 20 = true).
  { rewrite !Qgtb_true. intros H. eapply Qlt_trans; [|exact H]. reflexivity. }
  clear -H50. generalize dependent (recorded_size_mb env).
  generalize (recorded_quantized it), (recorded_memory_mb it),
    (warnings (before_scoring env it)).
  intros q m ws s H50.
  destruct ws as [|w ws], q, (Qgtb s 50) eqn:E50, (Qgtb s 20) eqn:E20, (Qgtb m 50);
    try (specialize (H50 eq_refl); discriminate);
    cbn [length]; split; try (intros (? & ? & ? & ?)); try done; try lia.
Qed.

Lemma perfect_score_iff_witness :
  ∃ r z, validate sample_int8_env = Some r ∧ stored_score r = Some z ∧
    (z = 100 ↔
       recorded_quantized sample_int8_model = true ∧
       Qgtb (recorded_size_mb sample_int8_env) 20 = false ∧
       Qgtb (recorded_memory_mb sample_int8_model) 50 = false ∧
       warnings r = []).
Proof.
  apply (perfect_score_iff sample_int8_env sample_int8_model); reflexivity.
Defined.

(** *** Rounding and the size thresholds *)

Lemma round_half_even_le (x : Q) (M : Z) :
  (x <= inject_Z M)%Q → round_half_even x ≤ M.
Proof.
  intros Hx. unfold round_half_even.
  pose proof (Qfloor_le x) as Hf.
  assert (Hle : Qfloor x ≤ M).
  { rewrite Zle_Qle. eapply Qle_trans; [exact Hf|exact Hx]. }
  destruct (Qcompare (x - inject_Z (Qfloor x)) (1 # 2)) eqn:Hc.
  - apply Qeq_alt in Hc.
    assert (Qfloor x < M); [|case_match; lia].
    rewrite Zlt_Qlt. lra.
  - lia.
  - apply Qgt_alt in Hc.
    assert (Qfloor x < M); [|lia].
    rewrite Zlt_Qlt. lra.
Qed.

Lemma round2_above (q : Q) (n : Z) :
  Qgtb (round2 q) (inject_Z n) = true → Qgtb q (inject_Z n) = true.
Proof.
  rewrite !Qgtb_true. unfold round2. rewrite Qred_correct.
  intros H. apply Qnot_le_lt. intros Hq.
  pose proof (round_half_even_le (q * 100) (n * 100)) as Hr.
  rewrite inject_Z_mult in Hr.
  assert (Hr' : round_half_even (q * 100) ≤ n * 100).
  { apply Hr. change (inject_Z 100) with 100%Q. lra. }
  rewrite Zle_Qle, inject_Z_mult in Hr'.
  change (inject_Z 100) with 100%Q in Hr'.
  set (k := inject_Z (round_half_even (q * 100))) in *.
  assert (k / 100 <= inject_Z n)%Q; [|lra].
  apply Qle_shift_div_r; lra.
Qed.

(** A model whose recorded size exceeds 50 MB also gets a size warning
    from the size check, which compares the size before rounding: it
    loses 15 points for the size and 5 for the warning, so its score is
    at most 80. *)
Theorem large_file_scores_at_most_80 env it :
  path_exists env = true → load_interpreter env = Some it →
  Qgtb (recorded_size_mb env) 50 = true →
  ∃ r z, validate env = Some r ∧ stored_score r = Some z ∧
    size_warnings env ≠ [] ∧ size_warnings env `prefix_of` warnings r ∧ z ≤ 80.
Proof.
  intros He Hl Hs.
  destruct (validate_scored env it He Hl) as (r & Hv & Hw & Hsc).
  exists r. eexists. split; [exact Hv|]. split; [exact Hsc|].
  assert (Hexact : Qgtb (exact_size_mb env) 50 = true).
  { apply (round2_above _ 50). exact Hs. }
  assert (Hne : size_warnings env ≠ []).
  { unfold size_warnings. rewrite Hexact. by case_match. }
  split; [done|]. rewrite Hw, warnings_before_scoring.
  split; [by apply prefix_app_r|].
  assert (Hlen : (1 ≤ length (size_warnings env))%nat)
    by (destruct (size_warnings env); [done|simpl; lia]).
  rewrite additive_score_eq, Hs, !length_app.
  clear -Hlen. generalize dependent (length (size_warnings env)).
  generalize (recorded_quantized it), (recorded_memory_mb it),
    (length (dynamic_warnings 0 (get_input_details it))),
    (length (quantization_warnings it)), (length (operations_warnings env)),
    (length (memory_warnings it)).
  intros q m n1 n2 n3 n4 n0 Hn. repeat case_match; lia.
Qed.

Lemma large_file_scores_at_most_80_witness :
  ∃ r z, validate sample_float_env = Some r ∧ stored_score r = Some z ∧
    size_warnings sample_float_env ≠ [] ∧
    size_warnings sample_float_env `prefix_of` warnings r ∧ z ≤ 80.
Proof.
  apply (large_file_scores_at_most_80 sample_float_env sample_float_model);
    reflexivity.
Defined.

(** *** The test inference *)

Lemma validate_valid_no_errors env r :
  validate env = Some r → valid r = true → errors r = [].
Proof.
  destruct (validate_cases env) as [[He ->]|[(He & Hl & ->)|(it & He & Hl & ->)]];
    intros [= <-]; try done.
  intros _. by destruct (before_scoring_spec env it) as (_ & ? & _).
Qed.

(** The test inference runs after the score is stored and never changes
    it, nor [valid] or [errors].  It adds at most one warning, and does
    add one when the dummy run raises; that warning is not counted in
    the stored score. *)
Theorem test_inference_keeps_score args env :
  ∃ code r r0,
    main args env = Some (code, r) ∧
    validate env = Some r0 ∧
    stored_score r = stored_score r0 ∧
    valid r = valid r0 ∧ errors r = errors r0 ∧
    (warnings r = warnings r0 ∨ warnings r = warnings r0 ++ [TestInferenceFailed]) ∧
    (test args = false ∨ valid r0 = false → r = r0) ∧
    (test args = true → valid r0 = true → dummy_run env = None →
     warnings r = warnings r0 ++ [TestInferenceFailed]).
Proof.
  destruct (validate_cases env) as [[He Hv]|[(He & Hl & Hv)|(it & He & Hl & Hv)]];
    unfold main; rewrite Hv; cbn [mbind option_bind];
    match goal with |- context [Some (_, if test args && valid ?r0 then _ else _)] =>
      set (r0' := r0) end.
  1,2: exists 1, r0', r0'; rewrite andb_false_r; cbn;
       repeat split; auto; by intros ? [=].
  assert (Hvalid : valid r0' = true) by by destruct (before_scoring_spec env it).
  rewrite Hvalid, andb_true_r.
  destruct (test args) eqn:Ht.
  - unfold test_inference.
    destruct (dummy_run env) as [[ms []]|] eqn:Hd; eexists _, _, _;
      (split; [reflexivity|]); (split; [reflexivity|]);
      unfold stored_score; cbn [info valid errors warnings set_info append_warning];
      rewrite ?lookup_insert_ne by done;
      repeat split; auto; try (by intros _ _ [=]);
      try (intros [[=]|Hf]; congruence).
  - exists 0, r0', r0'. rewrite Hvalid. repeat split; auto. by intros [=].
Qed.

(** *** The memory estimate *)











(** *** Select-TF operators *)

Lemma prefix_occurs needle haystack :
  String.prefix needle haystack = true ↔ ∃ after, haystack = needle +:+ after.
Proof.
  revert haystack. induction needle as [|a needle IH]; intros haystack.
  - destruct haystack; simpl; split; eauto.
  - destruct haystack as [|b haystack]; simpl; [split; [done|by intros [? ?]]|].
    destruct (ascii_dec a b) as [->|Hne].
    + rewrite IH. split; intros [after E]; exists after; [by rewrite E|by injection E].
    + split; [done|]. intros [after E]. by injection E.
Qed.

Lemma contains_occurs needle haystack :
  contains needle haystack = true ↔ occurs_in needle haystack.
Proof.
  unfold occurs_in. induction haystack as [|c haystack IH]; cbn [contains].
  - rewrite orb_false_r, prefix_occurs. split.
    + intros [after E]. by exists EmptyString, after.
    + intros [[|? before] [after E]]; [by exists after|done].
  - rewrite orb_true_iff, prefix_occurs, IH. split.
    + intros [[after E]|(before & after & E)].
      * by exists EmptyString, after.
      * exists (String c before), after. by rewrite E.
    + intros [[|c' before] [after E]].
      * left. by exists after.
      * right. exists before, after. by injection E.
Qed.

(** The operators check adds the select-TF warning exactly when the
    bytes of the file contain [FlexDelegate] somewhere, adds the
    could-not-check warning when the file cannot be read again, and
    nothing otherwise; it records nothing in [info]. *)
Theorem operations_warning_iff env r :
  info (_check_operations env r) = info r ∧
  match model_content env with
  | None => warnings (_check_operations env r) = warnings r ++ [CouldNotCheckOperations]
  | Some content =>
      (occurs_in "FlexDelegate" content →
       warnings (_check_operations env r) = warnings r ++ [SelectTfOps]) ∧
      (¬ occurs_in "FlexDelegate" content →
       warnings (_check_operations env r) = warnings r)
  end.
Proof.
  unfold _check_operations.
  destruct (model_content env) as [content|]; [|done].
  rewrite <- contains_occurs.
  destruct (contains "FlexDelegate" content); repeat split; done.
Qed.

(** *** The summary *)

Lemma print_summary_lines r :
  (info r !! "size_mb" = None ∨ ∃ s, info r !! "size_mb" = Some (VFloat s)) →
  ∃ lines,
    print_summary r = Some lines ∧
    (ModelIsValid ∈ lines ↔ valid r = true) ∧
    (ValidationFailed ∈ lines ↔ valid r = false) ∧
    (∀ e, ErrorLine e ∈ lines ↔ e ∈ errors r) ∧
    (∀ w, WarningLine w ∈ lines ↔ w ∈ warnings r) ∧
    (ApplyQuantization ∈ lines ↔
       truthy (default (VBool false) (info r !! "quantized")) = false).
Proof.
  intros Hsize. unfold print_summary. cbv zeta.
  assert (∃ q, as_number (default (VInt 0) (info r !! "size_mb")) = Some q) as [q ->].
  { destruct Hsize as [->|[s ->]]; eauto. }
  eexists. split; [reflexivity|].
  clear Hsize.
  destruct (valid r), (truthy _), (Qgtb q 20),
    (errors r) as [|e0 es], (warnings r) as [|w0 ws]; cbn;
    (split; [|split; [|split; [intros e|split; [intros w|]]]]);
    set_unfold; firstorder (try discriminate; try congruence).
Qed.

Lemma test_inference_frame env r k :
  k ≠ "cpu_inference_ms" →
  valid (test_inference env r) = valid r ∧
  errors (test_inference env r) = errors r ∧
  info (test_inference env r) !! k = info r !! k.
Proof.
  intros Hk. unfold test_inference.
  destruct (dummy_run env) as [[ms []]|];
    cbn [valid errors info set_info append_warning];
    by rewrite ?lookup_insert_ne.
Qed.

Lemma main_results args env :
  ∃ code r r0,
    main args env = Some (code, r) ∧ validate env = Some r0 ∧
    code = (if valid r0 then 0 else 1) ∧
    valid r = valid r0 ∧ errors r = errors r0 ∧
    ∀ k, k ≠ "cpu_inference_ms" → info r !! k = info r0 !! k.
Proof.
  destruct (validate_cases env) as [[_ Hv]|[(_ & _ & Hv)|(it & _ & _ & Hv)]];
    unfold main; rewrite Hv; cbn [mbind option_bind];
    match goal with |- context [Some (_, if test args && valid ?r0 then _ else _)] =>
      set (r0' := r0) end;
    (destruct (test args && valid r0') eqn:Ht;
     [ destruct (test_inference_frame env r0' "" ltac:(done)) as (Hv' & He' & _);
       eexists _, _, _; split; [reflexivity|]; split; [reflexivity|];
       rewrite Hv', He'; repeat split; try done;
       intros k Hk; by destruct (test_inference_frame env r0' k Hk) as (_ & _ & ?)
     | eexists _, _, _; split; [reflexivity|]; split; [reflexivity|]; done ]).
Qed.

(** [print_summary] never raises on the results [main] hands it, whether
    the validation passed or not.  It prints every recorded error and
    warning.  After a failed validation it prints the failure and still
    recommends quantization, although nothing about the model's tensors
    was recorded. *)
Theorem summary_after_main args env :
  ∃ code r lines,
    main args env = Some (code, r) ∧
    print_summary r = Some lines ∧
    (∀ e, ErrorLine e ∈ lines ↔ e ∈ errors r) ∧
    (∀ w, WarningLine w ∈ lines ↔ w ∈ warnings r) ∧
    (code = 0 → ModelIsValid ∈ lines) ∧
    (code = 1 → ValidationFailed ∈ lines ∧ ApplyQuantization ∈ lines).
Proof.
  destruct (main_results args env) as (code & r & r0 & Hmain & Hval & -> & Hv & He & Hi).
  assert (Hsize : info r0 !! "size_mb" = None ∨ ∃ s, info r0 !! "size_mb" = Some (VFloat s)).
  { destruct (validate_cases env) as [[_ Hc]|[(_ & _ & Hc)|(it & _ & _ & Hc)]];
      rewrite Hc in Hval; injection Hval as <-.
    - by left.
    - right. cbn [info append_error set_valid]. rewrite info_check_file_size. eauto.
    - right. destruct (before_scoring_spec env it) as (_ & _ & _ & Hs & _).
      cbn [info set_info]. rewrite lookup_insert_ne by done. eauto. }
  assert (Hquant : valid r0 = false → info r0 !! "quantized" = None).
  { destruct (validate_cases env) as [[_ Hc]|[(_ & _ & Hc)|(it & _ & _ & Hc)]];
      rewrite Hc in Hval; injection Hval as <-.
    - done.
    - intros _. cbn [info append_error set_valid]. by rewrite info_check_file_size.
    - destruct (before_scoring_spec env it) as (Hvalid & _). cbn [valid set_info].
      by rewrite Hvalid. }
  rewrite <- (Hi "size_mb") in Hsize by done.
  destruct (print_summary_lines r Hsize) as (lines & Hp & Hok & Hfail & Herr & Hwarn & Hrec).
  exists (if valid r0 then 0 else 1), r, lines.
  split; [done|]. split; [done|]. split; [done|]. split; [done|].
  rewrite <- Hv in *. destruct (valid r) eqn:Hvr.
  - split; [intros _; by apply Hok|done].
  - split; [done|]. intros _. split; [by apply Hfail|].
    apply Hrec. rewrite (Hi "quantized") by done. rewrite Hquant; done.
Qed.

End ValidatorMore.

(** ** More on the batch script *)

Module BatchSegMore.
Import Effects PyBuiltins BatchSeg BatchSegSpec BatchSegMoreSpec.
Import EffectsFacts PyBuiltinsFacts BatchSegFacts.

(** *** Output names *)

Lemma replace_from_free_prefix (old_rest new base rest : string) :
  free_of "." base = true →
  replace_from 0 (String "." old_rest) new (base +:+ rest) =
    base +:+ replace_from 0 (String "." old_rest) new rest.
Proof.
  induction base as [|c base IH]; [done|].
  cbn [free_of]. intros [Hc Hb]%andb_true_iff. apply negb_true_iff in Hc.
  change (String c base +:+ rest) with (String c (base +:+ rest)).
  change (String c base +:+ replace_from 0 (String "." old_rest) new rest)
    with (String c (base +:+ replace_from 0 (String "." old_rest) new rest)).
  rewrite <- (IH Hb).
  destruct (ascii_dec "." c) as [<-|Hne] eqn:Hdec; [by rewrite Ascii.eqb_refl in Hc|].
  cbn [replace_from String.prefix]. by rewrite Hdec.
Qed.

Lemma replace_from_absent (old new s : string) :
  Validator.contains old s = false → replace_from 0 old new s = s.
Proof.
  induction s as [|c s IH]; [done|].
  cbn [Validator.contains]. intros [Hp Hs]%orb_false_iff.
  cbn [replace_from]. by rewrite Hp, (IH Hs).
Qed.

Section Script.
Context {Image Plane : Type}.
Variable env : @Env Image Plane.
Variable args : Args.
Implicit Types h : list (@Event Image Plane).

Local Abbreviation Ev := (@Event Image Plane).

(** Only the two lower-case JPEG extensions are rewritten.  For a base
    name without a dot, [base.jpg], [base.jpeg] and [base.png] all get
    the output file [base.png], so their masks overwrite one another;
    a name in which neither [.jpg] nor [.jpeg] occurs keeps its own name
    as the output name. *)
Theorem output_names_collide (base name : string) :
  (free_of "." base = true →
   output_path_of env args (base +:+ ".jpg") =
     path_join env (output_dir args) (base +:+ ".png") ∧
   output_path_of env args (base +:+ ".jpeg") =
     path_join env (output_dir args) (base +:+ ".png") ∧
   output_path_of env args (base +:+ ".png") =
     path_join env (output_dir args) (base +:+ ".png")) ∧
  (Validator.contains ".jpg" name = false →
   Validator.contains ".jpeg" name = false →
   output_path_of env args name = path_join env (output_dir args) name).
Proof.
  unfold output_path_of, replace. split.
  - intros Hb. by rewrite !(replace_from_free_prefix _ _ base).
  - intros H1 H2. by rewrite (replace_from_absent ".jpg"), (replace_from_absent ".jpeg").
Qed.

(** *** Loading never misses a key *)

Lemma dict_get_is_Some {V} (d : list (string * V)) (k : string) :
  k ∈ d.*1 → is_Some (dict_get d k).
Proof.
  induction d as [|[k' v] d IH]; simpl.
  - by intros ?%elem_of_nil.
  - intros [->|Hin]%elem_of_cons.
    + rewrite String.eqb_refl. eauto.
    + destruct (String.eqb k' k); eauto.
Qed.

Lemma load_batch_events all_boxes names imgs0 bxs0 h h' out :
  load_batch env args all_boxes names imgs0 bxs0 h = (h', out) →
  ∃ paths, h' = h ++ (ImageNotFound <$> paths).
Proof.
  revert imgs0 bxs0 h.
  induction names as [|name names IH]; intros imgs0 bxs0 h; simpl.
  - intros [= <- <-]. exists []. by rewrite app_nil_r.
  - destruct (path_exists env _); simpl.
    + rewrite bind_eq. destruct (image_open env _) as [img|]; simpl.
      2:{ intros [= <- <-]. exists []. by rewrite app_nil_r. }
      rewrite bind_eq. destruct (dict_get all_boxes name) as [boxes|]; simpl.
      2:{ intros [= <- <-]. exists []. by rewrite app_nil_r. }
      apply IH.
    + rewrite bind_eq. unfold emit at 1. intros [paths ->]%IH.
      exists (path_join env (images_dir args) name :: paths).
      by rewrite <- app_assoc.
Qed.

Lemma load_batch_returns all_boxes names imgs0 bxs0 h :
  (∀ name, name ∈ names →
     name ∈ all_boxes.*1 ∧
     (image_exists env args name = true →
      is_Some (image_open env (path_join env (images_dir args) name)))) →
  ∃ h' imgs bxs,
    load_batch env args all_boxes names imgs0 bxs0 h = (h', Returned (imgs, bxs)).
Proof.
  revert imgs0 bxs0 h.
  induction names as [|name names IH]; intros imgs0 bxs0 h Hnames; simpl; [eauto|].
  destruct (Hnames name) as [Hkey Hopen]; [by left|].
  assert (Hrest : ∀ n, n ∈ names → n ∈ all_boxes.*1 ∧
            (image_exists env args n = true →
             is_Some (image_open env (path_join env (images_dir args) n))))
    by (intros n Hn; apply Hnames; by right).
  unfold image_exists in Hopen.
  destruct (path_exists env _) eqn:Hex; simpl.
  - destruct Hopen as [img Himg]; [done|].
    destruct (dict_get_is_Some all_boxes name Hkey) as [boxes Hboxes].
    rewrite bind_eq, Himg. simpl. rewrite bind_eq, Hboxes. simpl. by apply IH.
  - rewrite bind_eq. unfold emit at 1. by apply IH.
Qed.

Lemma load_batch_lengths all_boxes b h h0 imgs bxs :
  load_batch env args all_boxes b [] [] h = (h0, Returned (imgs, bxs)) →
  length imgs = length (existing env args b) ∧ length bxs = length imgs.
Proof.
  intros (paths & new_imgs & new_bxs & _ & -> & -> & Hi & Hb)%load_batch_returned.
  cbn [app].
  pose proof (Forall2_length _ _ _ Hi). pose proof (Forall2_length _ _ _ Hb).
  split; congruence.
Qed.

(** [load_batch] keeps images and boxes aligned: it returns as many box
    lists as images, and the k-th image and the k-th box list both
    belong to the k-th listed name whose file exists. *)
Theorem load_batch_aligned all_boxes b h h0 imgs bxs :
  load_batch env args all_boxes b [] [] h = (h0, Returned (imgs, bxs)) →
  length imgs = length (existing env args b) ∧
  length bxs = length imgs ∧
  ∀ k name,
    existing env args b !! k = Some name →
    ∃ img boxes,
      imgs !! k = Some img ∧
      image_open env (path_join env (images_dir args) name) = Some img ∧
      bxs !! k = Some boxes ∧
      dict_get all_boxes name = Some boxes.
Proof.
  intros (paths & new_imgs & new_bxs & _ & -> & -> & Hi & Hb)%load_batch_returned.
  cbn [app].
  pose proof (Forall2_length _ _ _ Hi) as Hli.
  pose proof (Forall2_length _ _ _ Hb) as Hlb.
  split; [done|]. split; [congruence|].
  intros k name Hk.
  destruct (Forall2_lookup_l _ _ _ _ _ Hi Hk) as (img & Himg & Hopen).
  destruct (Forall2_lookup_l _ _ _ _ _ Hb Hk) as (boxes & Hboxes & Hget).
  by exists img, boxes.
Qed.

(** *** A round always returns once its images are loaded *)

Lemma batch_round_after_load all_boxes b h h0 imgs bxs :
  load_batch env args all_boxes b [] [] h = (h0, Returned (imgs, bxs)) →
  ∃ tail,
    batch_round env args all_boxes b h = (h0 ++ tail, Returned tt) ∧
    (imgs = [] → tail = []) ∧
    (imgs ≠ [] → ∃ saved rest,
       tail = Inference imgs bxs :: (saved_event <$> saved) ++ rest ∧
       (rest = [] ∨ ∃ first_name, rest = [BatchError first_name])).
Proof.
  intros Hload. rewrite (batch_round_loaded _ _ _ _ _ _ _ _ Hload).
  pose proof (loaded_nil_iff _ _ _ _ _ _ _ _ Hload) as Hnil.
  case_bool_decide as Himgs.
  - exists []. rewrite app_nil_r. by repeat split.
  - destruct (existing_head env args b) as [first_name Hfirst]; [by rewrite <- Hnil|].
    destruct (process_and_save_cases env args b imgs bxs h0)
      as (saved & out & Hrun & _).
    unfold try_except. rewrite Hrun. destruct out as [[]|].
    + exists (Inference imgs bxs :: (saved_event <$> saved)). split; [done|].
      split; [done|]. intros _. exists saved, []. rewrite app_nil_r. auto.
    + rewrite bind_eq, Hfirst. simpl. unfold emit.
      exists (Inference imgs bxs :: (saved_event <$> saved) ++ [BatchError first_name]).
      rewrite <- app_assoc. split; [done|]. split; [done|].
      intros _. exists saved, [BatchError first_name]. eauto.
Qed.

Lemma batch_round_events all_boxes b h h' out :
  (0 < length b ≤ Z.to_nat (batch_size args))%nat →
  batch_round env args all_boxes b h = (h', out) →
  ∃ tail, h' = h ++ tail ∧ Forall (well_sized (batch_size args)) tail.
Proof.
  intros Hb.
  destruct (load_batch env args all_boxes b [] [] h) as [h0 [[imgs bxs]|]] eqn:Hload.
  - destruct (batch_round_after_load _ _ _ _ _ _ Hload) as (tail & -> & Hnil & Hcons).
    destruct (load_batch_lengths _ _ _ _ _ _ Hload) as (Hli & Hlb).
    destruct (load_batch_events _ _ _ _ _ _ _ Hload) as [paths ->].
    intros [= <- _]. exists ((ImageNotFound <$> paths) ++ tail).
    rewrite <- app_assoc. split; [done|]. apply Forall_app. split.
    { apply Forall_fmap, Forall_true. done. }
    destruct (decide (imgs = [])) as [Himgs|Himgs]; [by rewrite (Hnil Himgs)|].
    destruct (Hcons Himgs) as (saved & rest & -> & Hrest).
    constructor.
    + cbn. split; [|done]. split; [by destruct imgs; [|simpl; lia]|].
      rewrite Hli. pose proof (length_filter (λ name, image_exists env args name = true) b).
      unfold existing. lia.
    + apply Forall_app. split; [by apply Forall_fmap, Forall_true|].
      destruct Hrest as [->|[first_name ->]]; by repeat constructor.
  - unfold batch_round. rewrite bind_eq, Hload. intros [= <- _].
    destruct (load_batch_events _ _ _ _ _ _ _ Hload) as [paths ->].
    eexists. split; [done|]. apply Forall_fmap, Forall_true. done.
Qed.

Lemma batch_loop_events all_boxes bs h h' out :
  Forall (λ b, (0 < length b ≤ Z.to_nat (batch_size args))%nat) bs →
  for_each bs (batch_round env args all_boxes) h = (h', out) →
  ∃ tail, h' = h ++ tail ∧ Forall (well_sized (batch_size args)) tail.
Proof.
  intros Hbs. revert h. induction Hbs as [|b bs Hb _ IH]; intros h; simpl.
  - intros [= <- _]. exists []. by rewrite app_nil_r.
  - rewrite bind_eq.
    destruct (batch_round env args all_boxes b h) as [h1 o1] eqn:Hround.
    destruct (batch_round_events _ _ _ _ _ Hb Hround) as (tail1 & -> & Ht1).
    destruct o1 as [[]|].
    + intros (tail2 & -> & Ht2)%IH. exists (tail1 ++ tail2).
      rewrite <- app_assoc. split; [done|]. by apply Forall_app.
    + intros [= <- _]. by exists tail1.
Qed.

Lemma batch_loop_returns all_boxes bs h :
  (∀ b name, b ∈ bs → name ∈ b →
     name ∈ all_boxes.*1 ∧
     (image_exists env args name = true →
      is_Some (image_open env (path_join env (images_dir args) name)))) →
  ∃ h', for_each bs (batch_round env args all_boxes) h = (h', Returned tt).
Proof.
  revert h. induction bs as [|b bs IH]; intros h Hbs; simpl; [eauto|].
  destruct (load_batch_returns all_boxes b [] [] h) as (h0 & imgs & bxs & Hload).
  { intros name Hname. apply (Hbs b); [by left|done]. }
  destruct (batch_round_after_load _ _ _ _ _ _ Hload) as (tail & Hround & _).
  rewrite bind_eq, Hround. apply IH.
  intros b' name Hb'. apply Hbs. by right.
Qed.

(** *** The whole run *)

(** Once the set-up succeeded and the boxes file is read, with a positive
    batch size, [main] runs to its end whenever every listed image file
    that exists can be opened: no failure of the model or of a file
    write stops it. *)
Theorem main_survives_model_and_save_failures all_boxes :
  makedirs env (output_dir args) = true →
  from_pretrained env (model args) = true →
  json_load env (boxes_file args) = Some all_boxes →
  0 < batch_size args →
  (∀ name, name ∈ all_boxes.*1 → image_exists env args name = true →
     is_Some (image_open env (path_join env (images_dir args) name))) →
  ∃ h, main env args [] = (h, Returned tt).
Proof.
  intros Hd Hm Hb HB Hopen. rewrite (main_eq env args [] all_boxes Hd Hm Hb HB).
  apply batch_loop_returns. intros b name Hbin Hname.
  assert (Hin : name ∈ all_boxes.*1).
  { rewrite <- (batches_partition args all_boxes.*1 HB).
    apply list_elem_of_join. eauto. }
  split; [done|]. by apply Hopen.
Qed.

(** A batch size of zero makes [main] raise after the set-up, before any
    image is looked at; a negative batch size makes it return at once,
    having processed nothing. *)
Theorem batch_size_not_positive all_boxes :
  makedirs env (output_dir args) = true →
  from_pretrained env (model args) = true →
  json_load env (boxes_file args) = Some all_boxes →
  batch_size args ≤ 0 →
  main env args [] = ([], if batch_size args =? 0 then Raised else Returned tt).
Proof.
  intros Hd Hm Hb HB. unfold main, load_boxes.
  rewrite bind_eq, Hd. simpl. rewrite bind_eq, Hm. simpl.
  rewrite bind_eq, Hb. simpl. rewrite bind_eq. unfold range0.
  destruct (Z.eqb_spec (batch_size args) 0); [done|].
  destruct (Z.ltb_spec (batch_size args) 0); [done|lia].
Qed.

(** With a positive batch size, whatever happens during the run, the
    model is only ever called on a batch that is not empty, holds at
    most [batch_size] images, and comes with one box list per image. *)
Theorem inference_calls_well_sized h out :
  0 < batch_size args →
  main env args [] = (h, out) →
  Forall (well_sized (batch_size args)) h.
Proof.
  intros HB.
  destruct (makedirs env (output_dir args)) eqn:Hd.
  2:{ unfold main. rewrite bind_eq, Hd. by intros [= <- _]. }
  destruct (from_pretrained env (model args)) eqn:Hm.
  2:{ unfold main. rewrite bind_eq, Hd. simpl. rewrite bind_eq, Hm. by intros [= <- _]. }
  destruct (json_load env (boxes_file args)) as [all_boxes|] eqn:Hb.
  2:{ unfold main, load_boxes. rewrite bind_eq, Hd. simpl. rewrite bind_eq, Hm. simpl.
      rewrite bind_eq, Hb. by intros [= <- _]. }
  rewrite (main_eq env args [] all_boxes Hd Hm Hb HB).
  destruct (batches_spec args all_boxes.*1 HB) as (_ & _ & _ & _ & Hsize).
  by intros (tail & -> & Htail)%(batch_loop_events _ _ _ _ _ Hsize).
Qed.

(** *** Saving the masks of one image *)

Lemma planned_saves_masks name (masks : list Plane) :
  (planned_saves env args name masks).*2 = masks.
Proof.
  unfold planned_saves.
  assert (E : ∀ (g : nat → string) (l : list Plane),
            (imap (λ i mask, (g i, mask)) l).*2 = l).
  { intros g l. revert g. induction l as [|x l IH]; intros g; [done|].
    cbn. f_equal. apply (IH (λ i, g (S i))). }
  destruct masks as [|mask [|mask' masks]]; [done|done|].
  apply (E (λ i, path_sibling env (output_path_of env args name)
                   (path_stem env name +:+ "_obj" +:+ pretty i +:+ ".png"))).
Qed.

(** When every file write succeeds, [save_masks] writes one file per
    object, carrying the objects' planes in order, and returns: the
    single file [output_path] for one object, and no file at all (and no
    error) for an image without objects. *)
Theorem save_masks_one_file_per_object (masks : list Plane) name h :
  (∀ h' path, can_save env h' path = true) →
  ∃ files,
    save_masks env masks (output_path_of env args name) name h =
      (h ++ (saved_event <$> files), Returned tt) ∧
    files.*2 = masks ∧
    (masks = [] → files = []) ∧
    (∀ mask, masks = [mask] → files = [(output_path_of env args name, mask)]).
Proof.
  intros Hsave. rewrite save_masks_eq.
  destruct (save_all_spec env (planned_saves env args name masks) h)
    as (saved & _ & [[-> ->]|(_ & _ & p & m & _ & Hc)]).
  - exists (planned_saves env args name masks). split; [done|].
    split; [apply planned_saves_masks|]. split; [by intros ->|by intros mask ->].
  - by rewrite Hsave in Hc.
Qed.

End Script.

Lemma output_names_collide_witness :
  (output_path_of unwritable_env sample_args ("cat" +:+ ".jpg") = "masks/cat.png" ∧
   output_path_of unwritable_env sample_args ("cat" +:+ ".jpeg") = "masks/cat.png" ∧
   output_path_of unwritable_env sample_args ("cat" +:+ ".png") = "masks/cat.png") ∧
  output_path_of unwritable_env sample_args "cat.JPG" = "masks/cat.JPG".
Proof.
  destruct (output_names_collide unwritable_env sample_args "cat" "cat.JPG") as [H1 H2].
  split; [apply H1; reflexivity | apply H2; reflexivity].
Defined.

Lemma load_batch_aligned_witness :
  load_batch first_missing_env sample_args sample_boxes ["a.jpg"; "b.jpg"] [] [] [] =
    ([ImageNotFound "images/a.jpg"],
     Returned (["image of images/b.jpg"], [[[1; 1; 5; 5]]])) ∧
  length ["image of images/b.jpg"] =
    length (existing first_missing_env sample_args ["a.jpg"; "b.jpg"]).
Proof.
  split; [reflexivity|].
  apply (load_batch_aligned first_missing_env sample_args sample_boxes
           ["a.jpg"; "b.jpg"] [] [ImageNotFound "images/a.jpg"]
           ["image of images/b.jpg"] [[[1; 1; 5; 5]]]).
  reflexivity.
Defined.

Lemma main_survives_model_and_save_failures_witness :
  ∃ h, main broken_model_env sample_args [] = (h, Returned tt).
Proof.
  apply (main_survives_model_and_save_failures broken_model_env sample_args sample_boxes);
    [reflexivity | reflexivity | reflexivity | reflexivity |].
  intros name _ _. eexists. reflexivity.
Defined.

Lemma batch_size_not_positive_witness :
  main first_missing_env zero_batch_args [] = ([], Raised).
Proof.
  apply (batch_size_not_positive first_missing_env zero_batch_args sample_boxes);
    [reflexivity | reflexivity | reflexivity | simpl; lia].
Defined.

Lemma inference_calls_well_sized_witness :
  Forall (well_sized 2) (main unwritable_env sample_args []).1.
Proof.
  apply (inference_calls_well_sized unwritable_env sample_args _
           (main unwritable_env sample_args []).2); reflexivity.
Defined.

Lemma save_masks_one_file_per_object_witness :
  ∃ files,
    save_masks first_missing_env ["m1"; "m2"]
      (output_path_of first_missing_env sample_args "b.jpg") "b.jpg" [] =
      ([] ++ (saved_event <$> files), Returned tt) ∧
    files.*2 = ["m1"; "m2"] ∧
    (["m1"; "m2"] = [] → files = []) ∧
    (∀ mask, ["m1"; "m2"] = [mask] →
       files = [(output_path_of first_missing_env sample_args "b.jpg", mask)]).
Proof.
  apply (save_masks_one_file_per_object first_missing_env sample_args ["m1"; "m2"] "b.jpg" []).
  intros h' path. reflexivity.
Defined.

End BatchSegMore.

Module InteractiveMore.
Import Effects Interactive InteractiveSpec InteractiveMoreSpec EffectsFacts InteractiveFacts.

(** *** Fields of a box string *)

Lemma split_length sep s : length (split sep s) = S (count_char sep s).
Proof.
  induction s as [|c s IH]; simpl; [done|].
  destruct (Ascii.eqb c sep); simpl; [by rewrite IH|].
  destruct (split sep s); simpl in *; lia.
Qed.

(** When [parse_box] returns, the box has one integer per
    comma-separated field: one more than there are commas in the
    string, four or not. *)
Theorem parse_box_field_count s box :
  parse_box s = Some box → length box = S (count_char "," s).
Proof.
  unfold parse_box. intros Hbox%length_mapM.
  by rewrite <- Hbox, split_length.
Qed.

Lemma parse_box_field_count_witness :
  parse_box "10,20,30" = Some [10; 20; 30] ∧
  length [10; 20; 30] = S (count_char "," "10,20,30").
Proof.
  split; [reflexivity|].
  apply (parse_box_field_count "10,20,30" [10; 20; 30]). reflexivity.
Defined.




Lemma lstrip_blank s : blank s → lstrip s = EmptyString.
Proof.
  unfold blank. induction s as [|c s IH]; simpl; [done|].
  intros [-> Hs]%andb_true_iff. by apply IH.
Qed.

Lemma int_blank s : blank s → int s = None.
Proof. intros Hs. unfold int, strip. by rewrite (lstrip_blank s Hs). Qed.

(** A field that is empty or holds only white space makes [parse_box]
    raise, wherever it stands: an empty string, a leading or trailing
    comma, two commas in a row. *)
Theorem parse_box_rejects_blank_field toks tok :
  Forall comma_free toks →
  tok ∈ toks → blank tok →
  parse_box (String.concat "," toks) = None.
Proof.
  intros Hfree Hin Hblank. unfold parse_box.
  rewrite split_concat; [|by intros ->; inversion Hin|done].
  apply mapM_None_2, Exists_exists. exists tok. split; [done|].
  by apply int_blank.
Qed.

Lemma parse_box_rejects_blank_field_witness :
  parse_box "10,20, ," = None.
Proof.
  apply (parse_box_rejects_blank_field ["10"; "20"; " "; ""] " ").
  - repeat constructor.
  - by vm_compute; set_solver.
  - reflexivity.
Defined.












(** *** The main loop *)

Section Script.
Context {Image Tensor : Type}.
Variable env : @Env Image Tensor.
Implicit Types (s : @Segmenter Image Tensor) (h : list (@Event Image Tensor)).

(** The loop ends at the first [q]: whatever is clicked or typed after
    it has no effect, neither on the model calls and saved files nor on
    the final state. *)
Theorem main_loop_stops_at_quit output s (before after : list Input) h :
  main_loop env output s (before ++ Key "q" :: after) h =
  main_loop env output s before h.
Proof.
  revert s h. induction before as [|[event x y|key] before IH]; intros s h;
    cbn [main_loop app].
  - done.
  - rewrite !bind_eq.
    by destruct (mouse_callback env s event x y h) as [h1 [s1|]].
  - destruct (Ascii.eqb key "q"); [done|].
    destruct (Ascii.eqb key "r").
    { rewrite !bind_eq. by destruct (reset env s h) as [h1 [s1|]]. }
    destruct (Ascii.eqb key "s"); [|done].
    rewrite !bind_eq. by destruct (save_mask env s output h) as [h1 [[]|]].
Qed.

(** Keys other than [q], [r] and [s], and mouse events other than a
    button press, change nothing: a session with them behaves as the
    session without them. *)
Theorem main_loop_ignores_other_inputs output s (inputs : list Input) h :
  main_loop env output s (filter (λ i, relevant i = true) inputs) h =
  main_loop env output s inputs h.
Proof.
  revert s h. induction inputs as [|[event x y|key] inputs IH]; intros s h.
  - done.
  - destruct event.
    + rewrite filter_cons_True by done. cbn [main_loop]. rewrite !bind_eq.
      by destruct (mouse_callback env s _ x y h) as [h1 [s1|]].
    + rewrite filter_cons_True by done. cbn [main_loop]. rewrite !bind_eq.
      by destruct (mouse_callback env s _ x y h) as [h1 [s1|]].
    + rewrite filter_cons_False by done. cbn [main_loop mouse_callback].
      rewrite bind_eq. apply IH.
  - destruct (relevant (Key key)) eqn:Hkey.
    + rewrite filter_cons_True by done. cbn [main_loop].
      destruct (Ascii.eqb key "q"); [done|].
      destruct (Ascii.eqb key "r").
      { rewrite !bind_eq. by destruct (reset env s h) as [h1 [s1|]]. }
      destruct (Ascii.eqb key "s"); [|done].
      rewrite !bind_eq. by destruct (save_mask env s output h) as [h1 [[]|]].
    + rewrite filter_cons_False by (by rewrite Hkey). cbn [main_loop].
      simpl in Hkey. apply orb_false_iff in Hkey as [[-> ->]%orb_false_iff ->].
      apply IH.
Qed.

(** *** The display mask *)

Lemma initialize_in_sync s h h' s' :
  _initialize_segmentation env s h = (h', Returned s') → in_sync env s'.
Proof.
  rewrite initialize_eq.
  destruct (forward_box env _ _) as [outputs|]; [|done].
  destruct (argmax _ ≫= _) as [mask|]; [|done].
  destruct (post_process env mask _) as [display|] eqn:Hpost; [|done].
  intros [= _ <-]. by exists mask, display.
Qed.

Lemma add_point_in_sync s (x y : Z) (is_positive : bool) h h' s' :
  add_point env s x y is_positive h = (h', Returned s') → in_sync env s'.
Proof.
  rewrite add_point_eq.
  destruct (forward_points env _ _ _ _ _) as [pred|]; [|done].
  destruct (post_process env pred _) as [display|] eqn:Hpost; [|done].
  intros [= _ <-]. by exists pred, display.
Qed.

Lemma main_loop_in_sync output s inputs h h' s' :
  in_sync env s →
  main_loop env output s inputs h = (h', Returned s') → in_sync env s'.
Proof.
  revert s h. induction inputs as [|[event x y|key] inputs IH]; intros s h Hs;
    cbn [main_loop].
  - by intros [= _ <-].
  - rewrite bind_eq.
    destruct (mouse_callback env s event x y h) as [h1 [s1|]] eqn:Hstep; [|done].
    apply IH. destruct event; simpl in Hstep.
    + by apply add_point_in_sync in Hstep.
    + by apply add_point_in_sync in Hstep.
    + by injection Hstep as _ <-.
  - destruct (Ascii.eqb key "q"); [by intros [= _ <-]|].
    destruct (Ascii.eqb key "r").
    { rewrite bind_eq.
      destruct (reset env s h) as [h1 [s1|]] eqn:Hstep; [|done].
      apply IH. by apply initialize_in_sync in Hstep. }
    destruct (Ascii.eqb key "s"); [|by apply IH].
    rewrite bind_eq. destruct (save_mask env s output h) as [h1 [[]|]]; [|done].
    by apply IH.
Qed.

(** In every state a session reaches after construction, the display
    mask is the post-processed stored mask; so [save_mask] never meets
    an unset mask: it writes that display mask, and raises only when
    the file cannot be written. *)
Theorem session_display_in_sync img box output inputs h0 h1 h2 s0 s :
  init env img box h0 = (h1, Returned s0) →
  main_loop env output s0 inputs h1 = (h2, Returned s) →
  ∃ mask display,
    current_mask s = Some mask ∧
    display_mask s = Some display ∧
    post_process env mask (original_sizes s) = Some display ∧
    ∀ path h,
      save_mask env s path h =
        if can_save env path then (h ++ [MaskSaved path display], Returned tt)
        else (h, Raised).
Proof.
  intros Hinit%initialize_in_sync Hloop.
  destruct (main_loop_in_sync _ _ _ _ _ _ Hinit Hloop) as (mask & display & Hm & Hd & Hp).
  exists mask, display. repeat split; try done.
  intros path h. unfold save_mask. rewrite bind_eq, Hd. simpl.
  by destruct (can_save env path).
Qed.

(** *** Clicks and the cached embeddings *)



End Script.

Lemma session_display_in_sync_witness :
  ∃ mask display,
    current_mask
      {| image := "photo"; initial_box := [100; 100; 500; 500];
         positive_points := [(5, 6)]; negative_points := [];
         current_mask := Some "refined best";
         image_embeddings := Some "embeddings of photo";
         original_sizes := Some "sizes of photo";
         display_mask := Some "display of refined best" |} = Some mask ∧
    display = "display of refined best" ∧ mask = "refined best".
Proof.
  destruct (session_display_in_sync sample_env "photo" [100; 100; 500; 500]
              "mask.png" [Mouse EVENT_LBUTTONDOWN 5 6; Key "s"]
              [] [BoxInference "photo" [[[100; 100; 500; 500]]]]
              [BoxInference "photo" [[[100; 100; 500; 500]]];
               PointInference [(5, 6)] [1] (Some "sizes of photo") (Some "best")
                 (Some "embeddings of photo");
               MaskSaved "mask.png" "display of refined best"]
              sample_initial
              {| image := "photo"; initial_box := [100; 100; 500; 500];
                 positive_points := [(5, 6)]; negative_points := [];
                 current_mask := Some "refined best";
                 image_embeddings := Some "embeddings of photo";
                 original_sizes := Some "sizes of photo";
                 display_mask := Some "display of refined best" |})
    as (mask & display & Hm & Hd & _); [reflexivity | reflexivity |].
  exists mask, display. simpl in *. split; [done|]. split; congruence.
Defined.

End InteractiveMore.

Module ValidatorInfo.
Import PyNum Validator ValidatorSpec ValidatorMoreSpec ValidatorFacts ValidatorMore.

(** *** The keys of the tensor entries *)

Lemma pretty_N_go_no_underscore x s :
  no_underscore s = true → no_underscore (pretty_N_go x s) = true.
Proof.
  revert s. induction (N.lt_wf_0 x) as [x _ IH]; intros s Hs.
  assert (x = 0 ∨ 0 < x)%N as [->|Hx] by lia; [by rewrite pretty_N_go_0|].
  rewrite pretty_N_go_step by done. apply IH; [by apply N.div_lt|].
  simpl. rewrite Hs. unfold pretty_N_char. by repeat case_match.
Qed.

Lemma pretty_no_underscore (i : nat) : no_underscore (pretty i) = true.
Proof.
  unfold pretty, pretty_nat, pretty, pretty_N.
  case_decide; [done|]. by apply pretty_N_go_no_underscore.
Qed.

Lemma split_at_underscore a b x y :
  no_underscore a = true → no_underscore b = true →
  a +:+ String "_" x = b +:+ String "_" y → a = b ∧ x = y.
Proof.
  revert b. induction a as [|c a IH]; intros [|d b] Ha Hb H.
  - by injection H as ->.
  - injection H as <- _. done.
  - injection H as -> _. done.
  - injection H as -> H. simpl in Ha, Hb.
    apply andb_true_iff in Ha as [_ Ha]. apply andb_true_iff in Hb as [_ Hb].
    by destruct (IH b Ha Hb H) as [-> ->].
Qed.

Lemma index_key_inj pre (i j : nat) x y :
  pre +:+ pretty i +:+ String "_" x = pre +:+ pretty j +:+ String "_" y →
  i = j ∧ x = y.
Proof.
  intros H%(inj (String.append pre)).
  apply split_at_underscore in H as [H ->]; [|apply pretty_no_underscore..].
  by apply (inj pretty) in H.
Qed.

(** *** One loop of [_check_input_output] *)

Section Loop.
Variable body : Results → nat → TensorDetail → Results.

Lemma for_enumerate_frame (k : string) details i0 r :
  (∀ r i detail, info (body r i detail) !! k = info r !! k) →
  info (for_enumerate body i0 details r) !! k = info r !! k.
Proof.
  intros Hbody. revert i0 r.
  induction details as [|d details IH]; intros i0 r; cbn [for_enumerate]; [done|].
  by rewrite IH.
Qed.

Lemma for_enumerate_lookup (key : nat → string) (entry : TensorDetail → Value)
    details i0 r i :
  (∀ r i detail j,
     info (body r i detail) !! key j =
       if decide (j = i) then Some (entry detail) else info r !! key j) →
  info (for_enumerate body i0 details r) !! key i =
    if decide (i0 ≤ i)%nat then
      match details !! (i - i0)%nat with
      | Some detail => Some (entry detail)
      | None => info r !! key i
      end
    else info r !! key i.
Proof.
  intros Hbody. revert i0 r.
  induction details as [|d details IH]; intros i0 r; cbn [for_enumerate].
  - by case_decide.
  - rewrite IH, Hbody.
    destruct (decide (i = i0)) as [->|Hne].
    + rewrite decide_False by lia. rewrite decide_True by lia.
      by rewrite Nat.sub_diag.
    + destruct (decide (S i0 ≤ i)%nat) as [Hle|Hgt].
      * rewrite decide_True by lia.
        replace (i - i0)%nat with (S (i - S i0)) by lia. done.
      * by rewrite decide_False by lia.
Qed.

End Loop.

Lemma info_record_input r i detail :
  info (record_input r i detail) =
    <["input_" +:+ pretty i +:+ "_type" := type_entry detail]>
      (<["input_" +:+ pretty i +:+ "_shape" := shape_entry detail]> (info r)).
Proof. unfold record_input. cbv zeta. by case_bool_decide. Qed.

Lemma info_record_output r i detail :
  info (record_output r i detail) =
    <["output_" +:+ pretty i +:+ "_type" := type_entry detail]>
      (<["output_" +:+ pretty i +:+ "_shape" := shape_entry detail]> (info r)).
Proof. done. Qed.

Lemma lookup_tensor_entries pre (m : gmap string Value) (i j : nat) v1 v2 :
  (<[pre +:+ pretty i +:+ "_type" := v2]>
     (<[pre +:+ pretty i +:+ "_shape" := v1]> m)) !! (pre +:+ pretty j +:+ "_shape") =
    (if decide (j = i) then Some v1 else m !! (pre +:+ pretty j +:+ "_shape")) ∧
  (<[pre +:+ pretty i +:+ "_type" := v2]>
     (<[pre +:+ pretty i +:+ "_shape" := v1]> m)) !! (pre +:+ pretty j +:+ "_type") =
    (if decide (j = i) then Some v2 else m !! (pre +:+ pretty j +:+ "_type")).
Proof.
  split.
  - rewrite lookup_insert_ne by (by intros [_ [=]]%index_key_inj).
    case_decide as Hj.
    + subst. apply lookup_insert_eq.
    + apply lookup_insert_ne. intros [-> _]%index_key_inj. done.
  - case_decide as Hj.
    + subst. apply lookup_insert_eq.
    + rewrite lookup_insert_ne by (intros [-> _]%index_key_inj; done).
      apply lookup_insert_ne. by intros [_ [=]]%index_key_inj.
Qed.

Lemma info_check_quantization it r :
  info (_check_quantization it r) =
    <["quantized" := VBool (recorded_quantized it)]> (info r).
Proof.
  unfold _check_quantization. cbv zeta. fold (recorded_quantized it).
  by case_match.
Qed.

Lemma info_check_operations env r : info (_check_operations env r) = info r.
Proof. unfold _check_operations. by repeat case_match. Qed.

Lemma info_check_memory_usage it r :
  info (_check_memory_usage it r) =
    <["estimated_memory_mb" := VFloat (recorded_memory_mb it)]> (info r).
Proof.
  unfold _check_memory_usage. cbv zeta. fold (recorded_memory_mb it).
  by case_match.
Qed.

Lemma info_validate env it :
  path_exists env = true → load_interpreter env = Some it →
  ∃ r v,
    validate env = Some r ∧
    info r =
      <["compatibility_score" := v]>
        (<["estimated_memory_mb" := VFloat (recorded_memory_mb it)]>
           (<["quantized" := VBool (recorded_quantized it)]>
              (info (_check_input_output it (_check_file_size env init_results))))).
Proof.
  intros He Hl. rewrite (validate_passing_eq env it He Hl).
  eexists _, _. split; [reflexivity|].
  unfold before_scoring. cbn [info set_info].
  by rewrite info_check_memory_usage, info_check_operations, info_check_quantization.
Qed.

(** *** Reading the tensor entries back *)

(** After a validation that reached the scoring step, [info] holds under
    [input_<i>_shape] and [input_<i>_type] the shape and the type name of
    the i-th input tensor, and under [output_<i>_shape] and
    [output_<i>_type] those of the i-th output tensor, for every index
    the model has; for any other index it has no such entry.  No entry
    was overwritten by a later one. *)
Theorem tensor_info_round_trip env it :
  path_exists env = true → load_interpreter env = Some it →
  ∃ r,
    validate env = Some r ∧
    ∀ i : nat,
      info r !! ("input_" +:+ pretty i +:+ "_shape") =
        shape_entry <$> get_input_details it !! i ∧
      info r !! ("input_" +:+ pretty i +:+ "_type") =
        type_entry <$> get_input_details it !! i ∧
      info r !! ("output_" +:+ pretty i +:+ "_shape") =
        shape_entry <$> get_output_details it !! i ∧
      info r !! ("output_" +:+ pretty i +:+ "_type") =
        type_entry <$> get_output_details it !! i.
Proof.
  intros He Hl.
  destruct (info_validate env it He Hl) as (r & v & Hv & Hinfo).
  exists r. split; [done|]. intros i. rewrite Hinfo.
  rewrite !(lookup_insert_ne _ "compatibility_score") by discriminate.
  rewrite !(lookup_insert_ne _ "estimated_memory_mb") by discriminate.
  rewrite !(lookup_insert_ne _ "quantized") by discriminate.
  unfold _check_input_output. cbv zeta.
  set (r0 := _check_file_size env init_results).
  set (r1 := for_enumerate record_input 0 (get_input_details it) r0).
  assert (H0 : ∀ k, k ≠ "size_mb" → info r0 !! k = None).
  { intros k Hk. unfold r0. rewrite info_check_file_size. by rewrite decide_False. }
  assert (Hin_shape : info r1 !! ("input_" +:+ pretty i +:+ "_shape") =
                      shape_entry <$> get_input_details it !! i).
  { unfold r1.
    rewrite (for_enumerate_lookup record_input
               (λ i, "input_" +:+ pretty i +:+ "_shape") shape_entry).
    2:{ intros r' i' d j. rewrite info_record_input.
        exact (proj1 (lookup_tensor_entries "input_" (info r') i' j
                        (shape_entry d) (type_entry d))). }
    rewrite decide_True by lia. rewrite Nat.sub_0_r.
    destruct (get_input_details it !! i); [done|]. apply H0. discriminate. }
  assert (Hin_type : info r1 !! ("input_" +:+ pretty i +:+ "_type") =
                     type_entry <$> get_input_details it !! i).
  { unfold r1.
    rewrite (for_enumerate_lookup record_input
               (λ i, "input_" +:+ pretty i +:+ "_type") type_entry).
    2:{ intros r' i' d j. rewrite info_record_input.
        exact (proj2 (lookup_tensor_entries "input_" (info r') i' j
                        (shape_entry d) (type_entry d))). }
    rewrite decide_True by lia. rewrite Nat.sub_0_r.
    destruct (get_input_details it !! i); [done|]. apply H0. discriminate. }
  assert (Hout : ∀ k, (∀ (j : nat) x, k ≠ "input_" +:+ pretty j +:+ x) → k ≠ "size_mb" →
                      info r1 !! k = None).
  { intros k Hk Hs. unfold r1. rewrite for_enumerate_frame; [by apply H0|].
    intros r' i' d. rewrite info_record_input.
    rewrite !lookup_insert_ne; [done|intros E; exact (Hk _ _ (eq_sym E))..]. }
  repeat split.
  - rewrite for_enumerate_frame; [done|].
    intros r' i' d. rewrite info_record_output.
    rewrite !lookup_insert_ne; [done|discriminate..].
  - rewrite for_enumerate_frame; [done|].
    intros r' i' d. rewrite info_record_output.
    rewrite !lookup_insert_ne; [done|discriminate..].
  - rewrite (for_enumerate_lookup record_output
               (λ i, "output_" +:+ pretty i +:+ "_shape") shape_entry).
    2:{ intros r' i' d j. rewrite info_record_output.
        exact (proj1 (lookup_tensor_entries "output_" (info r') i' j
                        (shape_entry d) (type_entry d))). }
    rewrite decide_True by lia. rewrite Nat.sub_0_r.
    destruct (get_output_details it !! i); [done|]. apply Hout; discriminate.
  - rewrite (for_enumerate_lookup record_output
               (λ i, "output_" +:+ pretty i +:+ "_type") type_entry).
    2:{ intros r' i' d j. rewrite info_record_output.
        exact (proj2 (lookup_tensor_entries "output_" (info r') i' j
                        (shape_entry d) (type_entry d))). }
    rewrite decide_True by lia. rewrite Nat.sub_0_r.
    destruct (get_output_details it !! i); [done|]. apply Hout; discriminate.
Qed.

Lemma tensor_info_round_trip_witness :
  ∃ r,
    validate sample_float_env = Some r ∧
    ∀ i : nat,
      info r !! ("input_" +:+ pretty i +:+ "_shape") =
        shape_entry <$> get_input_details sample_float_model !! i ∧
      info r !! ("input_" +:+ pretty i +:+ "_type") =
        type_entry <$> get_input_details sample_float_model !! i ∧
      info r !! ("output_" +:+ pretty i +:+ "_shape") =
        shape_entry <$> get_output_details sample_float_model !! i ∧
      info r !! ("output_" +:+ pretty i +:+ "_type") =
        type_entry <$> get_output_details sample_float_model !! i.
Proof.
  apply (tensor_info_round_trip sample_float_env sample_float_model); reflexivity.
Defined.

(** *** Warnings about dynamic shapes *)

Lemma dynamic_warnings_elem (i : nat) sh i0 details :
  DynamicShape i sh ∈ dynamic_warnings i0 details ↔
  (i0 ≤ i)%nat ∧
  ∃ detail, details !! (i - i0)%nat = Some detail ∧ shape detail = sh ∧ -1 ∈ sh.
Proof.
  revert i0. induction details as [|d details IH]; intros i0; cbn [dynamic_warnings].
  - split; [by intros ?%elem_of_nil|]. by intros (_ & detail & ? & _).
  - rewrite elem_of_app, IH. split.
    + intros [Hhead|(Hle & detail & Hlook & Hsh & Hdyn)].
      * case_bool_decide as Hd; [|by apply elem_of_nil in Hhead].
        apply list_elem_of_singleton in Hhead. injection Hhead as -> ->.
        split; [lia|]. exists d. by rewrite Nat.sub_diag.
      * split; [lia|]. exists detail.
        by replace (i - i0)%nat with (S (i - S i0)) by lia.
    + intros (Hle & detail & Hlook & Hsh & Hdyn).
      destruct (decide (i = i0)) as [->|Hne].
      * left. rewrite Nat.sub_diag in Hlook. injection Hlook as ->.
        subst sh. rewrite bool_decide_true by done. by apply list_elem_of_singleton.
      * right. split; [lia|]. exists detail.
        by replace (i - i0)%nat with (S (i - S i0)) in Hlook by lia.
Qed.

(** After a validation that reached the scoring step, there is a
    dynamic-shape warning for input [i] with shape [sh] exactly when the
    i-th input tensor has shape [sh] and [sh] holds a dimension -1.
    Output tensors are never warned about. *)
Theorem dynamic_shape_warned_iff env it :
  path_exists env = true → load_interpreter env = Some it →
  ∃ r,
    validate env = Some r ∧
    ∀ (i : nat) sh,
      DynamicShape i sh ∈ warnings r ↔
      ∃ detail, get_input_details it !! i = Some detail ∧
                shape detail = sh ∧ -1 ∈ sh.
Proof.
  intros He Hl.
  destruct (validate_scored env it He Hl) as (r & Hv & Hw & _).
  exists r. split; [done|]. intros i sh.
  rewrite Hw, warnings_before_scoring, !elem_of_app, dynamic_warnings_elem.
  rewrite Nat.sub_0_r.
  assert (Hsize : DynamicShape i sh ∉ size_warnings env).
  { unfold size_warnings. repeat case_match; first [apply not_elem_of_nil | by intros [=]%list_elem_of_singleton]. }
  assert (Hquant : DynamicShape i sh ∉ quantization_warnings it).
  { unfold quantization_warnings. case_match; first [apply not_elem_of_nil | by intros [=]%list_elem_of_singleton]. }
  assert (Hops : DynamicShape i sh ∉ operations_warnings env).
  { unfold operations_warnings. repeat case_match; first [apply not_elem_of_nil | by intros [=]%list_elem_of_singleton]. }
  assert (Hmem : DynamicShape i sh ∉ memory_warnings it).
  { unfold memory_warnings. case_match; first [apply not_elem_of_nil | by intros [=]%list_elem_of_singleton]. }
  split.
  - intros [?|[[_ ?]|[?|[?|?]]]]; done.
  - intros Hd. right. left. split; [lia|done].
Qed.

Lemma dynamic_shape_warned_iff_witness :
  ∃ r,
    validate sample_float_env = Some r ∧
    ∀ (i : nat) sh,
      DynamicShape i sh ∈ warnings r ↔
      ∃ detail, get_input_details sample_float_model !! i = Some detail ∧
                shape detail = sh ∧ -1 ∈ sh.
Proof.
  apply (dynamic_shape_warned_iff sample_float_env sample_float_model); reflexivity.
Defined.

End ValidatorInfo.
